(** * tinynn: optimizers and learning-rate schedulers  (core/optimizer.py)

    A shallow embedding of [core/optimizer.py] and the properties its
    specification states about it.

    Modelling conventions.
    - Python floats are the exact rationals [Qc]; rounding, infinities and
      NaN are outside the model.  [np.sqrt] and the float power [**] have
      irrational values in general, so they are kept as the uninterpreted
      functions [fsqrt] and [fpow]: every result holds for any implementation
      of them.  [np.power b t] with an integer counter [t] is [b ^ t].
    - Python integers are [Z]; Adam's call counter, which starts at 0 and is
      only incremented, is a [nat].
    - A one-dimensional numpy value is an [arr]: a scalar (the accumulators
      are created as the number 0) or a vector, with numpy's broadcasting.
    - A parameter or a gradient is a [tensor]: a shape and its elements in
      row-major order.
    - A raised exception is [Raise e].  A method that mutates its object
      returns the new object next to its result, also when it raises. *)

From Stdlib Require Import ZArith QArith Qcanon List Bool Arith Lia Sorted.
Import ListNotations.

Local Open Scope Qc_scope.

(** ** Exceptions *)

Inductive exn : Type :=
| TypeError
| AttributeError
| AssertionError
| ValueError
| IndexError
| ZeroDivisionError
| NotImplementedError.

Inductive result (A : Type) : Type :=
| Ok (a : A)
| Raise (e : exn).

Arguments Ok {A} a.
Arguments Raise {A} e.

Definition bind {A B : Type} (r : result A) (k : A -> result B) : result B :=
  match r with
  | Ok a => k a
  | Raise e => Raise e
  end.

Notation "x <- c1 ;; c2" := (bind c1 (fun x => c2))
  (at level 61, c1 at next level, right associativity).

Definition assert (b : bool) : result unit :=
  if b then Ok tt else Raise AssertionError.

(** ** Lists of numbers *)

Fixpoint zip_with {A B C : Type} (f : A -> B -> C) (xs : list A) (ys : list B)
  : list C :=
  match xs, ys with
  | x :: xs', y :: ys' => f x y :: zip_with f xs' ys'
  | _, _ => []
  end.

(** [v[lo:hi]] on a one-dimensional array: Python clips the bounds to the
    array, it never raises. *)
Definition slice {A : Type} (v : list A) (lo hi : nat) : list A :=
  firstn (hi - lo) (skipn lo v).

(** ** One-dimensional numpy values with broadcasting *)

Inductive arr : Type :=
| Scalar (x : Qc)
| Vec (xs : list Qc).

Definition amap (f : Qc -> Qc) (a : arr) : arr :=
  match a with
  | Scalar x => Scalar (f x)
  | Vec xs => Vec (map f xs)
  end.

(** [a op b] for two numpy values: equal lengths combine elementwise, a
    scalar or a length-1 vector is stretched, anything else is numpy's
    "operands could not be broadcast together". *)
Definition broadcast (f : Qc -> Qc -> Qc) (a b : arr) : result arr :=
  match a, b with
  | Scalar x, Scalar y => Ok (Scalar (f x y))
  | Scalar x, Vec ys => Ok (Vec (map (f x) ys))
  | Vec xs, Scalar y => Ok (Vec (map (fun x => f x y) xs))
  | Vec xs, Vec ys =>
      if Nat.eqb (length xs) (length ys) then Ok (Vec (zip_with f xs ys))
      else match xs, ys with
           | [x], _ => Ok (Vec (map (f x) ys))
           | _, [y] => Ok (Vec (map (fun x => f x y) xs))
           | _, _ => Raise ValueError
           end
  end.

(** ** Tensors *)

Record tensor : Type := mkTensor {
  shape : list nat;
  data : list Qc
}.

(** [np.prod(shape)] for a shape of at least one dimension. *)
Definition prod_shape (s : list nat) : nat := fold_right Nat.mul 1%nat s.

(** [np.ravel t] *)
Definition ravel (t : tensor) : list Qc := data t.

(** [v.reshape(s)]: the element count must be that of the shape. *)
Definition reshape (v : list Qc) (s : list nat) : result tensor :=
  if Nat.eqb (length v) (prod_shape s) then Ok (mkTensor s v)
  else Raise ValueError.

(** [c * t] for a Python number [c]. *)
Definition tscale (c : Qc) (t : tensor) : tensor :=
  mkTensor (shape t) (map (Qcmult c) (data t)).

(** [a op b] for two tensors of one shape; the result has that shape. *)
Definition tzip (f : Qc -> Qc -> Qc) (a b : tensor) : tensor :=
  mkTensor (shape a) (zip_with f (data a) (data b)).

Definition tadd : tensor -> tensor -> tensor := tzip Qcplus.
Definition tsub : tensor -> tensor -> tensor := tzip Qcminus.

(** A numpy array holds as many elements as its shape says; a
    zero-dimensional array, of shape [()], holds one. *)
Definition wf_tensor (t : tensor) : Prop :=
  length (data t) = prod_shape (shape t).

(** ** The parameter source

    [net.get_params_and_grads()]: the ordered (parameter, gradient) pairs. *)

Definition source : Type := list (tensor * tensor).

Definition params (net : source) : list tensor := map fst net.
Definition grads (net : source) : list tensor := map snd net.

(** The data model's source: every gradient has the shape of its
    parameter. *)
Definition wf_source (net : source) : Prop :=
  Forall (fun pg => wf_tensor (fst pg) /\ wf_tensor (snd pg) /\
                    shape (snd pg) = shape (fst pg)) net.

(** No parameter of the source is a zero-dimensional array. *)
Definition at_least_1d (net : source) : Prop :=
  Forall (fun pg => shape (fst pg) <> []) net.

(** [np.concatenate] of one-dimensional arrays; numpy refuses an empty
    sequence ("need at least one array to concatenate"). *)
Definition np_concatenate (vs : list (list Qc)) : result (list Qc) :=
  match vs with
  | [] => Raise ValueError
  | _ => Ok (concat vs)
  end.

(** ** Optimizers *)

(** [class SGD(BaseOptimizer)] *)
Module SGD.

Record t : Type := mk {
  lr : Qc;
  weight_decay : Qc
}.

Definition __init__ (lr weight_decay : Qc) : t := mk lr weight_decay.

Definition set_lr (self : t) (x : Qc) : t := mk x (weight_decay self).

(** [return - self.lr * grad] *)
Definition _compute_step (self : t) (grad : arr) : t * result arr :=
  (self, Ok (amap (Qcmult (- lr self)) grad)).

End SGD.

(** [class Adam(BaseOptimizer)] *)
Module Adam.

Record t : Type := mk {
  lr : Qc;
  weight_decay : Qc;
  _b1 : Qc;
  _b2 : Qc;
  _eps : Qc;
  _t : nat;
  _m : arr;
  _v : arr
}.

Definition __init__ (lr beta1 beta2 eps weight_decay : Qc) : t :=
  mk lr weight_decay beta1 beta2 eps 0 (Scalar 0) (Scalar 0).

Definition set_lr (self : t) (x : Qc) : t :=
  mk x (weight_decay self) (_b1 self) (_b2 self) (_eps self)
     (_t self) (_m self) (_v self).
Definition set_t (self : t) (n : nat) : t :=
  mk (lr self) (weight_decay self) (_b1 self) (_b2 self) (_eps self)
     n (_m self) (_v self).
Definition set_m (self : t) (a : arr) : t :=
  mk (lr self) (weight_decay self) (_b1 self) (_b2 self) (_eps self)
     (_t self) a (_v self).
Definition set_v (self : t) (a : arr) : t :=
  mk (lr self) (weight_decay self) (_b1 self) (_b2 self) (_eps self)
     (_t self) (_m self) a.

Section WithSqrt.
Variable fsqrt : Qc -> Qc.

(** [lr_t = self.lr * np.sqrt(1 - np.power(self._b2, self._t)) /
            (1 - np.power(self._b1, self._t))] *)
Definition lr_t (self : t) : Qc :=
  lr self * fsqrt (1 - _b2 self ^ _t self) / (1 - _b1 self ^ _t self).

Definition _compute_step (self : t) (grad : arr) : t * result arr :=
  let self := set_t self (_t self + 1) in
  let lr_t := lr_t self in
  match broadcast Qcplus (amap (Qcmult (_b1 self)) (_m self))
                         (amap (Qcmult (1 - _b1 self)) grad) with
  | Raise e => (self, Raise e)
  | Ok m =>
      let self := set_m self m in
      match broadcast Qcplus
              (amap (Qcmult (_b2 self)) (_v self))
              (amap (Qcmult (1 - _b2 self)) (amap (fun g => g * g) grad))
      with
      | Raise e => (self, Raise e)
      | Ok v =>
          let self := set_v self v in
          (self,
           broadcast Qcdiv
             (amap (Qcmult (- lr_t)) (_m self))
             (amap (fun x => x + _eps self) (amap fsqrt (_v self))))
      end
  end.
End WithSqrt.

End Adam.

(** [class RMSProp(BaseOptimizer)] *)
Module RMSProp.

Record t : Type := mk {
  lr : Qc;
  weight_decay : Qc;
  _decay : Qc;
  _momentum : Qc;
  _eps : Qc;
  _ms : arr;
  _mom : arr
}.

Definition __init__ (lr decay momentum eps weight_decay : Qc) : t :=
  mk lr weight_decay decay momentum eps (Scalar 0) (Scalar 0).

Definition set_lr (self : t) (x : Qc) : t :=
  mk x (weight_decay self) (_decay self) (_momentum self) (_eps self)
     (_ms self) (_mom self).
Definition set_ms (self : t) (a : arr) : t :=
  mk (lr self) (weight_decay self) (_decay self) (_momentum self)
     (_eps self) a (_mom self).
Definition set_mom (self : t) (a : arr) : t :=
  mk (lr self) (weight_decay self) (_decay self) (_momentum self)
     (_eps self) (_ms self) a.

Section WithSqrt.
Variable fsqrt : Qc -> Qc.

Definition _compute_step (self : t) (grad : arr) : t * result arr :=
  match broadcast Qcplus
          (amap (Qcmult (_decay self)) (_ms self))
          (amap (Qcmult (1 - _decay self)) (amap (fun g => g * g) grad))
  with
  | Raise e => (self, Raise e)
  | Ok ms =>
      let self := set_ms self ms in
      match (q <- broadcast Qcdiv
                    (amap (Qcmult (lr self)) grad)
                    (amap fsqrt (amap (fun x => x + _eps self) (_ms self))) ;;
             broadcast Qcplus (amap (Qcmult (_momentum self)) (_mom self)) q)
      with
      | Raise e => (self, Raise e)
      | Ok mom =>
          let self := set_mom self mom in
          (self, Ok (amap Qcopp (_mom self)))
      end
  end.
End WithSqrt.

End RMSProp.

(** [class Momentum(BaseOptimizer)] *)
Module Momentum.

Record t : Type := mk {
  lr : Qc;
  weight_decay : Qc;
  _momentum : Qc;
  _acc : arr
}.

Definition __init__ (lr momentum weight_decay : Qc) : t :=
  mk lr weight_decay momentum (Scalar 0).

Definition set_lr (self : t) (x : Qc) : t :=
  mk x (weight_decay self) (_momentum self) (_acc self).
Definition set_acc (self : t) (a : arr) : t :=
  mk (lr self) (weight_decay self) (_momentum self) a.

Definition _compute_step (self : t) (grad : arr) : t * result arr :=
  match broadcast Qcplus (amap (Qcmult (_momentum self)) (_acc self)) grad
  with
  | Raise e => (self, Raise e)
  | Ok acc =>
      let self := set_acc self acc in
      (self, Ok (amap (Qcmult (- lr self)) (_acc self)))
  end.

End Momentum.

(** An optimizer object is an instance of one of the four classes. *)
Inductive optimizer : Type :=
| OSGD (o : SGD.t)
| OAdam (o : Adam.t)
| ORMSProp (o : RMSProp.t)
| OMomentum (o : Momentum.t).

Definition lr (o : optimizer) : Qc :=
  match o with
  | OSGD o => SGD.lr o
  | OAdam o => Adam.lr o
  | ORMSProp o => RMSProp.lr o
  | OMomentum o => Momentum.lr o
  end.

Definition weight_decay (o : optimizer) : Qc :=
  match o with
  | OSGD o => SGD.weight_decay o
  | OAdam o => Adam.weight_decay o
  | ORMSProp o => RMSProp.weight_decay o
  | OMomentum o => Momentum.weight_decay o
  end.

(** [optim.lr = x] *)
Definition set_lr (o : optimizer) (x : Qc) : optimizer :=
  match o with
  | OSGD o => OSGD (SGD.set_lr o x)
  | OAdam o => OAdam (Adam.set_lr o x)
  | ORMSProp o => ORMSProp (RMSProp.set_lr o x)
  | OMomentum o => OMomentum (Momentum.set_lr o x)
  end.

(** [class BaseOptimizer] *)
Module BaseOptimizer.

(** [def _compute_step(self, grad): raise NotImplementedError] *)
Definition _compute_step {Self : Type} (self : Self) (grad : arr)
  : Self * result arr :=
  (self, Raise NotImplementedError).

(** [np.prod(param.shape)]: an integer for a shape of at least one
    dimension; for the empty shape numpy returns the float [1.0], which
    the slice [flatten_step[p: p+block]] refuses. *)
Definition np_prod (s : list nat) : result nat :=
  match s with
  | [] => Raise TypeError
  | _ => Ok (prod_shape s)
  end.

(** [flatten_step[lo: hi]]; a number has no slices. *)
Definition aslice (a : arr) (lo hi : nat) : result (list Qc) :=
  match a with
  | Scalar _ => Raise IndexError
  | Vec v => Ok (slice v lo hi)
  end.

(** The update of one parameter:
    [flatten_step[p: p+block].reshape(param.shape) -
     self.weight_decay * param]. *)
Definition param_step (wd : Qc) (flatten_step : arr) (p : nat)
    (param : tensor) : result (nat * tensor) :=
  block <- np_prod (shape param) ;;
  v <- aslice flatten_step p (p + block) ;;
  blk <- reshape v (shape param) ;;
  Ok (block, tsub blk (tscale wd param)).

(** The [for param, grad in net.get_params_and_grads()] loop of [step],
    from offset [p] with the updates [step] recorded so far.  The
    parameters updated before an exception stay updated. *)
Fixpoint loop (wd : Qc) (flatten_step : arr) (p : nat) (step : list tensor)
    (net : source) : source * result (list tensor) :=
  match net with
  | [] => ([], Ok step)
  | (param, grad) :: rest =>
      match param_step wd flatten_step p param with
      | Raise e => (net, Raise e)
      | Ok (block, _step) =>
          let (rest', r) :=
            loop wd flatten_step (p + block) (step ++ [_step]) rest in
          ((tadd param _step, grad) :: rest', r)
      end
  end.

Section Step.
(** The subclass: its [weight_decay] and its [_compute_step]. *)
Context {Self : Type}.
Variable weight_decay : Self -> Qc.
Variable _compute_step : Self -> arr -> Self * result arr.

Definition step (self : Self) (net : source)
  : Self * source * result (list tensor) :=
  match np_concatenate (map (fun pg => ravel (snd pg)) net) with
  | Raise e => (self, net, Raise e)
  | Ok flatten_grads =>
      match _compute_step self (Vec flatten_grads) with
      | (self, Raise e) => (self, net, Raise e)
      | (self, Ok flatten_step) =>
          let (net', r) := loop (weight_decay self) flatten_step 0 [] net in
          (self, net', r)
      end
  end.
End Step.

End BaseOptimizer.

Section Dispatch.
Variable fsqrt : Qc -> Qc.

(** [self._compute_step(grad)], by the class of [self]. *)
Definition _compute_step (o : optimizer) (grad : arr)
  : optimizer * result arr :=
  match o with
  | OSGD o => let (o', r) := SGD._compute_step o grad in (OSGD o', r)
  | OAdam o => let (o', r) := Adam._compute_step fsqrt o grad in (OAdam o', r)
  | ORMSProp o =>
      let (o', r) := RMSProp._compute_step fsqrt o grad in (ORMSProp o', r)
  | OMomentum o =>
      let (o', r) := Momentum._compute_step o grad in (OMomentum o', r)
  end.

(** [optimizer.step(net)] *)
Definition step
  : optimizer -> source -> optimizer * source * result (list tensor) :=
  BaseOptimizer.step weight_decay _compute_step.

(** [n] training iterations: before each call the backward pass has
    written fresh gradients [gs] next to the parameters. *)
Fixpoint refresh (net : source) (gs : list tensor) : source :=
  match net, gs with
  | (p, _) :: net', g :: gs' => (p, g) :: refresh net' gs'
  | _, _ => net
  end.

Fixpoint steps (o : optimizer) (net : source) (gss : list (list tensor))
  : optimizer * source :=
  match gss with
  | [] => (o, net)
  | gs :: gss' =>
      let '(o', net', _) := step o (refresh net gs) in
      steps o' net' gss'
  end.
End Dispatch.

(** ** Learning-rate schedulers *)

(** The optimizer objects, by identity.  A scheduler holds a reference to
    its optimizer and writes that object's [lr]. *)
Definition ref : Type := nat.
Definition heap : Type := ref -> optimizer.

Definition upd (h : heap) (r : ref) (o : optimizer) : heap :=
  fun r' => if Nat.eqb r' r then o else h r'.

(** [x < y] on floats *)
Definition Qc_ltb (x y : Qc) : bool :=
  match x ?= y with
  | Lt => true
  | _ => false
  end.

(** [a / b] on two Python integers *)
Definition truediv (a b : Z) : result Qc :=
  if Z.eqb b 0 then Raise ZeroDivisionError
  else Ok (Q2Qc (inject_Z a) / Q2Qc (inject_Z b)).

(** [a % b] on two Python integers: the sign of the divisor, as [Z.modulo]. *)
Definition pymod (a b : Z) : result Z :=
  if Z.eqb b 0 then Raise ZeroDivisionError else Ok (a mod b)%Z.

(** [class BaseScheduler] *)
Module BaseScheduler.

Record t : Type := mk {
  _optim : option ref;
  _initial_lr : Qc;
  _t : Z
}.

Definition set_t (self : t) (n : Z) : t :=
  mk (_optim self) (_initial_lr self) n.

(** [return self._optim.lr], on the [_optim] attribute of [self] *)
Definition get_current_lr (_optim : option ref) (h : heap) : result Qc :=
  match _optim with
  | None => Raise AttributeError
  | Some r => Ok (lr (h r))
  end.

(** [def _compute_lr(self): raise NotImplementedError] *)
Definition _compute_lr {Self : Type} (self : Self) (h : heap) : result Qc :=
  Raise NotImplementedError.

(** [def __init__(self)], called with the positional arguments [args]
    after [self]: the method declares none. *)
Definition __init__ (args : list ref) (h : heap) : result t :=
  match args with
  | [] =>
      let _optim := None in
      _initial_lr <- get_current_lr _optim h ;;
      Ok (mk _optim _initial_lr 0)
  | _ :: _ => Raise TypeError
  end.

Section Step.
(** The subclass: where it keeps the base attributes, and its
    [_compute_lr]. *)
Context {Self : Type}.
Variable base : Self -> t.
Variable set_base : Self -> t -> Self.
Variable _compute_lr : Self -> heap -> result Qc.

Definition step (self : Self) (h : heap) : Self * heap * result Qc :=
  let self := set_base self (set_t (base self) (_t (base self) + 1)) in
  match _compute_lr self h with
  | Raise e => (self, h, Raise e)
  | Ok new_lr =>
      match _optim (base self) with
      | None => (self, h, Raise AttributeError)
      | Some r =>
          let h := upd h r (set_lr (h r) new_lr) in
          (self, h, get_current_lr (_optim (base self)) h)
      end
  end.
End Step.

End BaseScheduler.

(** [class StepLR(BaseScheduler)] *)
Module StepLR.

Record t : Type := mk {
  base : BaseScheduler.t;
  _step_size : Z;
  _gamma : Qc
}.

Definition set_base (self : t) (b : BaseScheduler.t) : t :=
  mk b (_step_size self) (_gamma self).

Definition __init__ (optimizer : ref) (step_size : Z) (gamma : Qc) (h : heap)
  : result t :=
  b <- BaseScheduler.__init__ [optimizer] h ;;
  _ <- assert (1 <=? step_size)%Z ;;
  Ok (mk b step_size gamma).

Definition _compute_lr (self : t) (h : heap) : result Qc :=
  m <- pymod (BaseScheduler._t (base self)) (_step_size self) ;;
  let decay := if Z.eqb m 0 then _gamma self else 1 in
  cur <- BaseScheduler.get_current_lr (BaseScheduler._optim (base self)) h ;;
  Ok (decay * cur).

Definition step : t -> heap -> t * heap * result Qc :=
  BaseScheduler.step base set_base _compute_lr.

End StepLR.

(** A Python value given as a milestone: an integer or a float. *)
Inductive pyval : Type :=
| PyInt (z : Z)
| PyFloat (x : Qc).

(** [int(m)]: a float is truncated towards zero. *)
Definition py_int (m : pyval) : Z :=
  match m with
  | PyInt z => z
  | PyFloat x => Z.quot (Qnum x) (Zpos (Qden x))
  end.

(** [isinstance(x, int)] *)
Definition isinstance_int (x : pyval) : bool :=
  match x with
  | PyInt _ => true
  | PyFloat _ => false
  end.

(** [class MultiStepLR(BaseScheduler)] *)
Module MultiStepLR.

Record t : Type := mk {
  base : BaseScheduler.t;
  _milestones : list Z;
  _gamma : Qc
}.

Definition set_base (self : t) (b : BaseScheduler.t) : t :=
  mk b (_milestones self) (_gamma self).

(** The body of [__init__] after the call of the base constructor:
    [milestones = [int(m) for m in milestones]] and the assertion on the
    converted list. *)
Definition check_milestones (milestones : list pyval) : result (list Z) :=
  let milestones := map py_int milestones in
  _ <- assert
         (forallb (fun xy => Z.ltb (fst xy) (snd xy))
                  (combine (removelast milestones) (tl milestones))
          && forallb (fun x => isinstance_int (PyInt x)) milestones) ;;
  Ok milestones.

Definition __init__ (optimizer : ref) (milestones : list pyval) (gamma : Qc)
    (h : heap) : result t :=
  b <- BaseScheduler.__init__ [optimizer] h ;;
  milestones <- check_milestones milestones ;;
  Ok (mk b milestones gamma).

Definition _compute_lr (self : t) (h : heap) : result Qc :=
  let decay :=
    if existsb (Z.eqb (BaseScheduler._t (base self))) (_milestones self)
    then _gamma self else 1 in
  cur <- BaseScheduler.get_current_lr (BaseScheduler._optim (base self)) h ;;
  Ok (decay * cur).

Definition step : t -> heap -> t * heap * result Qc :=
  BaseScheduler.step base set_base _compute_lr.

End MultiStepLR.

(** [class ExponentialLR(BaseScheduler)] *)
Module ExponentialLR.

Record t : Type := mk {
  base : BaseScheduler.t;
  _decay_steps : Z;
  _decay_rate : Qc
}.

Definition set_base (self : t) (b : BaseScheduler.t) : t :=
  mk b (_decay_steps self) (_decay_rate self).

Definition __init__ (optimizer : ref) (decay_steps : Z) (decay_rate : Qc)
    (h : heap) : result t :=
  b <- BaseScheduler.__init__ [optimizer] h ;;
  Ok (mk b decay_steps decay_rate).

Section WithPow.
(** [x ** y] on floats *)
Variable fpow : Qc -> Qc -> Qc.

Definition _compute_lr (self : t) (h : heap) : result Qc :=
  if (BaseScheduler._t (base self) <=? _decay_steps self)%Z then
    q <- truediv (BaseScheduler._t (base self)) (_decay_steps self) ;;
    Ok (BaseScheduler._initial_lr (base self) * fpow (_decay_rate self) q)
  else
    BaseScheduler.get_current_lr (BaseScheduler._optim (base self)) h.

Definition step : t -> heap -> t * heap * result Qc :=
  BaseScheduler.step base set_base _compute_lr.
End WithPow.

End ExponentialLR.

(** [class LinearLR(BaseScheduler)] *)
Module LinearLR.

Record t : Type := mk {
  base : BaseScheduler.t;
  _lr_delta : Qc;
  _final_lr : Qc;
  _decay_steps : Z;
  _start_step : Z
}.

Definition set_base (self : t) (b : BaseScheduler.t) : t :=
  mk b (_lr_delta self) (_final_lr self) (_decay_steps self)
     (_start_step self).

Definition __init__ (optimizer : ref) (decay_steps : Z) (final_lr : Qc)
    (start_step : Z) (h : heap) : result t :=
  b <- BaseScheduler.__init__ [optimizer] h ;;
  _ <- assert (Qc_ltb final_lr (BaseScheduler._initial_lr b)) ;;
  _ <- assert (0 <? decay_steps)%Z ;;
  let _lr_delta :=
    (final_lr - BaseScheduler._initial_lr b) / Q2Qc (inject_Z decay_steps) in
  Ok (mk b _lr_delta final_lr decay_steps start_step).

Definition _compute_lr (self : t) (h : heap) : result Qc :=
  if (_start_step self <? BaseScheduler._t (base self))%Z
     && (BaseScheduler._t (base self) <=? _start_step self + _decay_steps self)%Z
  then
    cur <- BaseScheduler.get_current_lr (BaseScheduler._optim (base self)) h ;;
    Ok (cur + _lr_delta self)
  else BaseScheduler.get_current_lr (BaseScheduler._optim (base self)) h.

Definition step : t -> heap -> t * heap * result Qc :=
  BaseScheduler.step base set_base _compute_lr.

End LinearLR.

(** The values returned by [n] successive calls of a scheduler's [step]. *)
Fixpoint lr_sequence {Self : Type}
    (step : Self -> heap -> Self * heap * result Qc)
    (n : nat) (self : Self) (h : heap) : list (result Qc) :=
  match n with
  | O => []
  | S n' =>
      let '(self', h', r) := step self h in
      r :: lr_sequence step n' self' h'
  end.

(** ** The specification's wording, for comparison with the code *)

(** An accumulator that is still the number it was created as, or already
    has the [n] entries of the flattened gradient vector. *)
Definition arr_fits (n : nat) (a : arr) : Prop :=
  match a with
  | Scalar _ => True
  | Vec xs => length xs = n
  end.

(** The accumulator as [n] numbers. *)
Definition stretch (n : nat) (a : arr) : list Qc :=
  match a with
  | Scalar x => repeat x n
  | Vec xs => xs
  end.

(** The accumulators of an optimizer fit a flattened gradient vector of
    [n] entries. *)
Definition compatible (n : nat) (o : optimizer) : Prop :=
  match o with
  | OSGD _ => True
  | OAdam a => arr_fits n (Adam._m a) /\ arr_fits n (Adam._v a)
  | ORMSProp a => arr_fits n (RMSProp._ms a) /\ arr_fits n (RMSProp._mom a)
  | OMomentum a => arr_fits n (Momentum._acc a)
  end.

(** Specification 4.1, step 4: "for each parameter of element count [n],
    take the next [n] entries of S, reshape to that parameter's shape". *)
Fixpoint blocks_of (S : list Qc) (net : source) : list tensor :=
  match net with
  | [] => []
  | (param, _) :: rest =>
      let n := prod_shape (shape param) in
      mkTensor (shape param) (firstn n S) :: blocks_of (skipn n S) rest
  end.

(** "subtract [weight_decay * parameter] from it to get the per-parameter
    update" *)
Definition updates_of (wd : Qc) (S : list Qc) (net : source) : list tensor :=
  zip_with (fun blk param => tsub blk (tscale wd param))
           (blocks_of S net) (params net).

(** "add the update to the parameter in place" *)
Definition apply_updates (net : source) (updates : list tensor) : source :=
  zip_with (fun pg u => (tadd (fst pg) u, snd pg)) net updates.

(** The flattened gradient vector of a source. *)
Definition flatten_grads (net : source) : list Qc :=
  concat (map (fun pg => ravel (snd pg)) net).

(** The sum of the per-parameter block sizes. *)
Definition element_count (net : source) : nat :=
  list_sum (map (fun pg => prod_shape (shape (fst pg))) net).

(** The results of successive calls of a step rule on the gradient vectors
    [gs]. *)
Fixpoint run_rule {Self : Type} (rule : Self -> arr -> Self * result arr)
    (self : Self) (gs : list (list Qc)) : Self * list (result arr) :=
  match gs with
  | [] => (self, [])
  | g :: gs' =>
      let (self', r) := rule self (Vec g) in
      let (self'', rs) := run_rule rule self' gs' in
      (self'', r :: rs)
  end.

(** Specification 4.2, the row of Adam, coordinate by coordinate on
    vectors of one length:
    [t += 1]; [lr_t = lr * sqrt(1-beta2^t) / (1-beta1^t)];
    [m = beta1*m + (1-beta1)*grad]; [v = beta2*v + (1-beta2)*grad^2];
    [step = -lr_t * m / (sqrt(v)+eps)]. *)
Module AdamSpec.

Record state : Type := mk {
  t : nat;
  m : list Qc;
  v : list Qc
}.

(** "[t], [m], [v] all initialized to 0" *)
Definition init (n : nat) : state := mk 0 (repeat 0 n) (repeat 0 n).

Section Recurrence.
Variable fsqrt : Qc -> Qc.
Variables lr beta1 beta2 eps : Qc.

Definition update (s : state) (grad : list Qc) : state * list Qc :=
  let t := S (t s) in
  let lr_t := lr * fsqrt (1 - beta2 ^ t) / (1 - beta1 ^ t) in
  let m := zip_with (fun m g => beta1 * m + (1 - beta1) * g) (m s) grad in
  let v := zip_with (fun v g => beta2 * v + (1 - beta2) * (g * g)) (v s) grad in
  let step := zip_with (fun m v => - lr_t * m / (fsqrt v + eps)) m v in
  (mk t m v, step).

Fixpoint run (s : state) (gs : list (list Qc)) : state * list (list Qc) :=
  match gs with
  | [] => (s, [])
  | g :: gs' =>
      let (s', step) := update s g in
      let (s'', steps) := run s' gs' in
      (s'', step :: steps)
  end.
End Recurrence.

End AdamSpec.

(** An Adam object with the hyperparameters [lr], [beta1], [beta2], [eps]
    stands for the specification's state [s] on [n] coordinates. *)
Definition adam_sim (lr beta1 beta2 eps : Qc) (n : nat) (self : Adam.t)
    (s : AdamSpec.state) : Prop :=
  Adam.lr self = lr /\ Adam._b1 self = beta1 /\ Adam._b2 self = beta2 /\
  Adam._eps self = eps /\
  Adam._t self = AdamSpec.t s /\
  arr_fits n (Adam._m self) /\ stretch n (Adam._m self) = AdamSpec.m s /\
  arr_fits n (Adam._v self) /\ stretch n (Adam._v self) = AdamSpec.v s.

(** The docstring of [Momentum], coordinate by coordinate:
    [accumulation = momentum * accumulation + gradient],
    [variable -= learning_rate * accumulation]. *)
Module MomentumSpec.

Definition update (lr momentum : Qc) (acc grad : list Qc)
  : list Qc * list Qc :=
  let acc := zip_with (fun a g => momentum * a + g) acc grad in
  (acc, map (fun a => - (lr * a)) acc).

End MomentumSpec.

(** The docstring of [RMSProp], coordinate by coordinate:
    [mean_square = decay * mean_square + (1-decay) * grad**2],
    [mom = momentum * mom + lr * grad / sqrt(mean_square + epsilon)];
    the step is [-mom]. *)
Module RMSPropSpec.

Record state : Type := mk {
  mean_square : list Qc;
  mom : list Qc
}.

Section Recurrence.
Variable fsqrt : Qc -> Qc.
Variables lr decay momentum epsilon : Qc.

Definition update (s : state) (grad : list Qc) : state * list Qc :=
  let mean_square :=
    zip_with (fun ms g => decay * ms + (1 - decay) * (g * g))
             (mean_square s) grad in
  let mom :=
    zip_with (fun mo x => momentum * mo + x) (mom s)
      (zip_with (fun g ms => lr * g / fsqrt (ms + epsilon)) grad mean_square) in
  (mk mean_square mom, map Qcopp mom).
End Recurrence.

End RMSPropSpec.

(** The steps of a coordinate-wise recurrence on the gradient vectors
    [gs]. *)
Fixpoint run_spec {St : Type} (update : St -> list Qc -> St * list Qc)
    (s : St) (gs : list (list Qc)) : St * list (list Qc) :=
  match gs with
  | [] => (s, [])
  | g :: gs' =>
      let (s', step) := update s g in
      let (s'', steps) := run_spec update s' gs' in
      (s'', step :: steps)
  end.

(** The optimizer and the heap after [n] successive calls of a scheduler's
    [step]. *)
Fixpoint after_steps {Self : Type}
    (step : Self -> heap -> Self * heap * result Qc)
    (n : nat) (self : Self) (h : heap) : Self * heap :=
  match n with
  | O => (self, h)
  | S n' =>
      let '(self', h', _) := step self h in
      after_steps step n' self' h'
  end.

(** The Python integer [z] as a float. *)
Definition Qc_of_Z (z : Z) : Qc := Q2Qc (inject_Z z).

(** ** Example objects *)

Definition q2 : Qc := Q2Qc (2 # 1).

Definition example_param : tensor := mkTensor [2%nat] [1; q2].

Definition example_grad : tensor := mkTensor [2%nat] [1; 1].

Definition example_net : source := [(example_param, example_grad)].

(** A source with one zero-dimensional parameter. *)
Definition scalar_net : source := [(mkTensor [] [q2], mkTensor [] [1])].

Definition example_gradients : list (list Qc) := [[1; q2]; [q2; 1]].

Definition q1_5 : Qc := Q2Qc (3 # 2).

Definition q3_2 : Qc := Q2Qc (16 # 5).

Definition stepLR_example : StepLR.t :=
  StepLR.mk (BaseScheduler.mk (Some 0%nat) 1 0) 2 (Q2Qc (1 # 2)).

Definition stepLR_example_heap : heap := fun _ => OSGD (SGD.__init__ 1 0).

Definition expLR_example : ExponentialLR.t :=
  ExponentialLR.mk (BaseScheduler.mk (Some 0%nat) 1 1) 2 (Q2Qc (1 # 4)).

Definition multiStepLR_example : MultiStepLR.t :=
  MultiStepLR.mk (BaseScheduler.mk (Some 0%nat) 1 1) [2%Z; 4%Z]
    (Q2Qc (1 # 10)).

Definition multiStepLR_late : MultiStepLR.t :=
  MultiStepLR.mk (BaseScheduler.mk (Some 0%nat) 1 4) [2%Z; 4%Z]
    (Q2Qc (1 # 10)).

Definition expLR_fresh : ExponentialLR.t :=
  ExponentialLR.mk (BaseScheduler.mk (Some 0%nat) 1 0) 2 (Q2Qc (1 # 4)).

Definition linearLR_example : LinearLR.t :=
  LinearLR.mk (BaseScheduler.mk (Some 0%nat) 1 0)
    ((0 - 1) / Qc_of_Z 4) 0 4 0.

Definition momentum_stale : Momentum.t :=
  Momentum.mk 1 q2 0 (Vec [1; 1; 1]).

Definition adam_stale : Adam.t :=
  Adam.mk 1 0 q2 q2 1 3 (Vec [1; 1; 1]) (Vec [1; 1; 1]).

Definition short_grad_net : source :=
  [(example_param, mkTensor [1%nat] [1])].

Definition long_grad_net : source :=
  [(example_param, mkTensor [3%nat] [1; 1; 1])].

(** * Properties *)

(** ** The example sources *)

Lemma example_net_wf : wf_source example_net.
Proof.
  unfold wf_source, example_net. constructor; [| constructor].
  repeat split.
Qed.

Lemma example_net_1d : at_least_1d example_net.
Proof. repeat constructor. discriminate. Qed.

Lemma scalar_net_wf : wf_source scalar_net.
Proof.
  unfold wf_source, scalar_net. constructor; [| constructor].
  repeat split.
Qed.


(** ** Schedulers *)

Lemma lr_set_lr (o : optimizer) (x : Qc) : lr (set_lr o x) = x.
Proof. destruct o; reflexivity. Qed.

Lemma upd_same (h : heap) (r : ref) (o : optimizer) : upd h r o r = o.
Proof. unfold upd. now rewrite Nat.eqb_refl. Qed.

Lemma upd_other (h : heap) (r r' : ref) (o : optimizer) :
  r' <> r -> upd h r o r' = h r'.
Proof.
  intros Hne. unfold upd.
  destruct (Nat.eqb_spec r' r); [contradiction | reflexivity].
Qed.

(** The base constructor declares no parameter after [self]: called with the
    optimizer it raises [TypeError] before anything is stored. *)
Lemma base_init_one_argument (optimizer : ref) (h : heap) :
  BaseScheduler.__init__ [optimizer] h = Raise TypeError.
Proof. reflexivity. Qed.

(** Called the way it is declared, the base constructor sets [_optim] to
    [None] and reads its [lr]. *)
Lemma base_init_no_argument (h : heap) :
  BaseScheduler.__init__ [] h = Raise AttributeError.
Proof. reflexivity. Qed.

(** C1 (the code at the claim): constructing any of the four schedulers
    around an optimizer raises [TypeError] in the call of the base
    constructor; no scheduler object, no [_initial_lr] and no counter
    exist afterwards. *)
Theorem scheduler_construction_raises (optimizer : ref) (h : heap) :
  (forall step_size gamma,
      StepLR.__init__ optimizer step_size gamma h = Raise TypeError) /\
  (forall milestones gamma,
      MultiStepLR.__init__ optimizer milestones gamma h = Raise TypeError) /\
  (forall decay_steps decay_rate,
      ExponentialLR.__init__ optimizer decay_steps decay_rate h
      = Raise TypeError) /\
  (forall decay_steps final_lr start_step,
      LinearLR.__init__ optimizer decay_steps final_lr start_step h
      = Raise TypeError).
Proof. repeat split; intros; reflexivity. Qed.

(** C4 (the code at the claim): the constructor of MultiStepLR raises
    [TypeError] for every milestones list, increasing or not, before the
    list is looked at; its check of the milestones refuses [[4, 2]], but
    it converts each milestone with [int] first, so the floats
    [[1.5, 3.2]] pass it as [[1, 3]]. *)
Theorem multistep_milestones_check (optimizer : ref) (gamma : Qc) (h : heap) :
  (forall milestones,
      MultiStepLR.__init__ optimizer milestones gamma h = Raise TypeError) /\
  MultiStepLR.check_milestones [PyInt 4; PyInt 2] = Raise AssertionError /\
  MultiStepLR.check_milestones [PyFloat q1_5; PyFloat q3_2] = Ok [1%Z; 3%Z].
Proof. repeat split. Qed.

(** One call of [StepLR.step] on a scheduler bound to the optimizer at [r],
    with the step size the constructor asserts. *)
Lemma StepLR_step_eq (self : StepLR.t) (h : heap) (r : ref) :
  BaseScheduler._optim (StepLR.base self) = Some r ->
  (1 <= StepLR._step_size self)%Z ->
  let t' := (BaseScheduler._t (StepLR.base self) + 1)%Z in
  let new_lr :=
    (if Z.eqb (t' mod StepLR._step_size self) 0
     then StepLR._gamma self else 1) * lr (h r) in
  StepLR.step self h =
    (StepLR.set_base self (BaseScheduler.set_t (StepLR.base self) t'),
     upd h r (set_lr (h r) new_lr),
     Ok new_lr).
Proof.
  intros Hopt Hsize t' new_lr.
  unfold StepLR.step, BaseScheduler.step, StepLR._compute_lr, pymod.
  cbn [StepLR.base StepLR.set_base StepLR._step_size StepLR._gamma
       BaseScheduler._optim BaseScheduler._t BaseScheduler.set_t].
  rewrite Hopt.
  destruct (Z.eqb_spec (StepLR._step_size self) 0) as [E | _]; [lia |].
  cbn [bind BaseScheduler.get_current_lr].
  fold t'. fold new_lr.
  now rewrite upd_same, lr_set_lr.
Qed.

(** C7: a call of [StepLR.step] increments the counter, and writes and
    returns the current learning rate times [gamma] when the incremented
    counter is a multiple of the step size, the current learning rate as it
    is otherwise; with [step_size = 2], [gamma = 0.5] and the learning rate
    1.0, four calls return 1.0, 0.5, 0.5, 0.25. *)
Theorem StepLR_step_decays_every_step_size :
  (forall (self : StepLR.t) (h : heap) (r : ref),
      BaseScheduler._optim (StepLR.base self) = Some r ->
      (1 <= StepLR._step_size self)%Z ->
      exists self' h' new_lr,
        StepLR.step self h = (self', h', Ok new_lr) /\
        BaseScheduler._t (StepLR.base self')
        = (BaseScheduler._t (StepLR.base self) + 1)%Z /\
        lr (h' r) = new_lr /\
        (forall r', r' <> r -> h' r' = h r') /\
        ((BaseScheduler._t (StepLR.base self') mod StepLR._step_size self = 0)%Z ->
         new_lr = StepLR._gamma self * lr (h r)) /\
        ((BaseScheduler._t (StepLR.base self') mod StepLR._step_size self <> 0)%Z ->
         new_lr = lr (h r))) /\
  lr_sequence StepLR.step 4 stepLR_example stepLR_example_heap
  = [Ok 1; Ok (Q2Qc (1 # 2)); Ok (Q2Qc (1 # 2)); Ok (Q2Qc (1 # 4))].
Proof.
  split.
  - intros self h r Hopt Hsize.
    pose proof (StepLR_step_eq self h r Hopt Hsize) as Hstep.
    cbv zeta in Hstep.
    eexists _, _, _. split; [exact Hstep |].
    cbn [StepLR.base StepLR.set_base BaseScheduler._t BaseScheduler.set_t].
    repeat split.
    + now rewrite upd_same, lr_set_lr.
    + intros r' Hne. now apply upd_other.
    + intros Hmod. rewrite Hmod. reflexivity.
    + intros Hmod.
      destruct (Z.eqb_spec
                  ((BaseScheduler._t (StepLR.base self) + 1)
                     mod StepLR._step_size self) 0) as [E | _];
        [contradiction | ring].
  - cbn. repeat (f_equal; try (apply Qc_is_canon; reflexivity)).
Qed.

Lemma StepLR_step_decays_every_step_size_witness :
  exists self' h' new_lr,
    StepLR.step stepLR_example stepLR_example_heap = (self', h', Ok new_lr) /\
    BaseScheduler._t (StepLR.base self') = 1%Z /\
    new_lr = lr (stepLR_example_heap 0%nat).
Proof.
  destruct (proj1 StepLR_step_decays_every_step_size
              stepLR_example stepLR_example_heap 0%nat eq_refl)
    as (self' & h' & new_lr & Hstep & Ht & _ & _ & _ & Hkeep).
  - cbn. lia.
  - exists self', h', new_lr. repeat split; [exact Hstep | exact Ht |].
    apply Hkeep. rewrite Ht. cbn. discriminate.
Defined.

Section ExponentialLRProperties.
Variable fpow : Qc -> Qc -> Qc.

(** C8: a call of [ExponentialLR.step] whose incremented counter [t] is at
    most [decay_steps], [t = decay_steps] included, writes and returns
    [initial_lr * decay_rate ** (t / decay_steps)]; a call with
    [t > decay_steps] writes back and returns the learning rate the
    optimizer already has. *)
Theorem ExponentialLR_step_decays_then_freezes
    (self : ExponentialLR.t) (h : heap) (r : ref) :
  BaseScheduler._optim (ExponentialLR.base self) = Some r ->
  (0 <= BaseScheduler._t (ExponentialLR.base self))%Z ->
  let t := (BaseScheduler._t (ExponentialLR.base self) + 1)%Z in
  let decay_steps := ExponentialLR._decay_steps self in
  exists self' h' new_lr,
    ExponentialLR.step fpow self h = (self', h', Ok new_lr) /\
    BaseScheduler._t (ExponentialLR.base self') = t /\
    lr (h' r) = new_lr /\
    (forall r', r' <> r -> h' r' = h r') /\
    ((t <= decay_steps)%Z ->
     new_lr = BaseScheduler._initial_lr (ExponentialLR.base self) *
              fpow (ExponentialLR._decay_rate self)
                   (Q2Qc (inject_Z t) / Q2Qc (inject_Z decay_steps))) /\
    ((t > decay_steps)%Z -> new_lr = lr (h r)).
Proof.
  intros Hopt Ht t decay_steps.
  unfold ExponentialLR.step, BaseScheduler.step, ExponentialLR._compute_lr,
    truediv.
  cbn [ExponentialLR.base ExponentialLR.set_base ExponentialLR._decay_steps
       ExponentialLR._decay_rate BaseScheduler._optim BaseScheduler._t
       BaseScheduler._initial_lr BaseScheduler.set_t].
  fold t. fold decay_steps. rewrite Hopt.
  destruct (Z.leb_spec t decay_steps) as [Hle | Hgt].
  - destruct (Z.eqb_spec decay_steps 0) as [E | _]; [subst t; lia |].
    cbn [bind BaseScheduler.get_current_lr].
    rewrite upd_same, lr_set_lr.
    eexists _, _, _. split; [reflexivity |].
    cbn [ExponentialLR.base BaseScheduler._t].
    split; [reflexivity |]. split; [now rewrite upd_same, lr_set_lr |].
    split; [intros r' Hne; now apply upd_other |].
    split; [reflexivity | lia].
  - cbn [BaseScheduler.get_current_lr].
    rewrite upd_same, lr_set_lr.
    eexists _, _, _. split; [reflexivity |].
    cbn [ExponentialLR.base BaseScheduler._t].
    split; [reflexivity |]. split; [now rewrite upd_same, lr_set_lr |].
    split; [intros r' Hne; now apply upd_other |].
    split; [lia | reflexivity].
Qed.

End ExponentialLRProperties.

Lemma ExponentialLR_step_decays_then_freezes_witness :
  exists self' h' new_lr,
    ExponentialLR.step (fun x _ => x) expLR_example stepLR_example_heap
    = (self', h', Ok new_lr) /\
    new_lr = 1 * Q2Qc (1 # 4).
Proof.
  destruct (ExponentialLR_step_decays_then_freezes (fun x _ => x)
              expLR_example stepLR_example_heap 0%nat eq_refl)
    as (self' & h' & new_lr & Hstep & _ & _ & _ & Hdecay & _).
  - cbn. lia.
  - exists self', h', new_lr. split; [exact Hstep |].
    apply Hdecay. cbn. lia.
Defined.

(** ** Lists and broadcasting *)

Lemma zip_with_length {A B C : Type} (f : A -> B -> C) (xs : list A)
    (ys : list B) :
  length (zip_with f xs ys) = Nat.min (length xs) (length ys).
Proof.
  revert ys. induction xs as [| x xs IH]; intros [| y ys]; cbn; auto.
Qed.

Lemma zip_with_map {A A' B B' C : Type} (f : A' -> B' -> C) (g1 : A -> A')
    (g2 : B -> B') (xs : list A) (ys : list B) :
  zip_with f (map g1 xs) (map g2 ys)
  = zip_with (fun x y => f (g1 x) (g2 y)) xs ys.
Proof.
  revert ys. induction xs as [| x xs IH]; intros [| y ys]; cbn; auto.
  now rewrite IH.
Qed.

Lemma zip_with_map_l {A A' B C : Type} (f : A' -> B -> C) (g : A -> A')
    (xs : list A) (ys : list B) :
  zip_with f (map g xs) ys = zip_with (fun x y => f (g x) y) xs ys.
Proof.
  revert ys. induction xs as [| x xs IH]; intros [| y ys]; cbn; auto.
  now rewrite IH.
Qed.

Lemma zip_with_ext {A B C : Type} (f g : A -> B -> C) (xs : list A)
    (ys : list B) :
  (forall x y, f x y = g x y) -> zip_with f xs ys = zip_with g xs ys.
Proof.
  intros Hfg. revert ys.
  induction xs as [| x xs IH]; intros [| y ys]; cbn; auto.
  now rewrite Hfg, IH.
Qed.

Lemma zip_with_repeat_l {A B C : Type} (f : A -> B -> C) (x : A)
    (ys : list B) :
  zip_with f (repeat x (length ys)) ys = map (f x) ys.
Proof. induction ys as [| y ys IH]; cbn; [| rewrite IH]; reflexivity. Qed.

Lemma stretch_length (n : nat) (a : arr) :
  arr_fits n a -> length (stretch n a) = n.
Proof. destruct a; cbn; intros H; [apply repeat_length | exact H]. Qed.

Lemma stretch_amap (f : Qc -> Qc) (n : nat) (a : arr) :
  stretch n (amap f a) = map f (stretch n a).
Proof. destruct a; cbn; [symmetry; apply map_repeat | reflexivity]. Qed.

Lemma arr_fits_amap (f : Qc -> Qc) (n : nat) (a : arr) :
  arr_fits n a -> arr_fits n (amap f a).
Proof. destruct a; cbn; [auto | now rewrite length_map]. Qed.

(** An accumulator that fits combines with a vector of [n] entries
    coordinate by coordinate. *)
Lemma broadcast_fits_vec (f : Qc -> Qc -> Qc) (n : nat) (a : arr)
    (ys : list Qc) :
  arr_fits n a -> length ys = n ->
  broadcast f a (Vec ys) = Ok (Vec (zip_with f (stretch n a) ys)).
Proof.
  intros Ha Hys. destruct a as [x | xs]; cbn in *.
  - subst n. now rewrite zip_with_repeat_l.
  - rewrite Ha, Hys, Nat.eqb_refl. reflexivity.
Qed.

Lemma broadcast_vec_vec (f : Qc -> Qc -> Qc) (xs ys : list Qc) :
  length xs = length ys ->
  broadcast f (Vec xs) (Vec ys) = Ok (Vec (zip_with f xs ys)).
Proof. intros H. cbn. now rewrite H, Nat.eqb_refl. Qed.

Lemma zip_with_length_eq {A B C : Type} (f : A -> B -> C) (n : nat)
    (xs : list A) (ys : list B) :
  length xs = n -> length ys = n -> length (zip_with f xs ys) = n.
Proof. intros Hx Hy. rewrite zip_with_length, Hx, Hy. apply Nat.min_id. Qed.

(** ** Shapes *)

Lemma loop_shapes (wd : Qc) (flatten_step : arr) (net : source) :
  forall p step,
    map (fun pg => shape (fst pg))
        (fst (BaseOptimizer.loop wd flatten_step p step net))
    = map (fun pg => shape (fst pg)) net.
Proof.
  induction net as [| [param grad] rest IH]; intros p step; cbn; trivial.
  destruct (BaseOptimizer.param_step wd flatten_step p param)
    as [[block _step] | e]; cbn; trivial.
  specialize (IH (p + block)%nat (step ++ [_step])).
  destruct (BaseOptimizer.loop wd flatten_step (p + block)
              (step ++ [_step]) rest) as [rest' r].
  cbn in *. now rewrite IH.
Qed.

Lemma loop_grads (wd : Qc) (flatten_step : arr) (net : source) :
  forall p step,
    grads (fst (BaseOptimizer.loop wd flatten_step p step net)) = grads net.
Proof.
  induction net as [| [param grad] rest IH]; intros p step; cbn; trivial.
  destruct (BaseOptimizer.param_step wd flatten_step p param)
    as [[block _step] | e]; cbn; trivial.
  specialize (IH (p + block)%nat (step ++ [_step])).
  destruct (BaseOptimizer.loop wd flatten_step (p + block)
              (step ++ [_step]) rest) as [rest' r].
  cbn in *. now rewrite IH.
Qed.

Section StepShapes.
Context {Self : Type}.
Variable wd_of : Self -> Qc.
Variable rule : Self -> arr -> Self * result arr.

Lemma base_step_shapes (self : Self) (net : source) :
  map (fun pg => shape (fst pg))
      (snd (fst (BaseOptimizer.step wd_of rule self net)))
  = map (fun pg => shape (fst pg)) net.
Proof.
  unfold BaseOptimizer.step.
  destruct (np_concatenate _) as [G | e]; cbn; trivial.
  destruct (rule self (Vec G)) as [self' [S | e]]; cbn; trivial.
  pose proof (loop_shapes (wd_of self') S net 0 []) as H.
  destruct (BaseOptimizer.loop _ _ _ _ _) as [net' r]. exact H.
Qed.

Lemma base_step_grads (self : Self) (net : source) :
  grads (snd (fst (BaseOptimizer.step wd_of rule self net))) = grads net.
Proof.
  unfold BaseOptimizer.step.
  destruct (np_concatenate _) as [G | e]; cbn; trivial.
  destruct (rule self (Vec G)) as [self' [S | e]]; cbn; trivial.
  pose proof (loop_grads (wd_of self') S net 0 []) as H.
  destruct (BaseOptimizer.loop _ _ _ _ _) as [net' r]. exact H.
Qed.
End StepShapes.

Lemma refresh_shapes (net : source) (gs : list tensor) :
  map (fun pg => shape (fst pg)) (refresh net gs)
  = map (fun pg => shape (fst pg)) net.
Proof.
  revert gs. induction net as [| [p g] net IH]; intros [| g' gs]; cbn; trivial.
  now rewrite IH.
Qed.

(** C9: whatever the optimizer, the source and the gradients written
    before each call, and whether the calls return or raise, after any
    number of calls of [step] the parameters have, in order, the shapes
    they had before the first call. *)
Theorem steps_preserve_shapes (fsqrt : Qc -> Qc) (o : optimizer)
    (net : source) (gss : list (list tensor)) :
  map shape (params (snd (steps fsqrt o net gss))) = map shape (params net).
Proof.
  unfold params. rewrite !map_map.
  revert o net. induction gss as [| gs gss IH]; intros o net; cbn; trivial.
  pose proof (base_step_shapes weight_decay (_compute_step fsqrt) o
                (refresh net gs)) as Hstep.
  unfold step.
  destruct (BaseOptimizer.step weight_decay (_compute_step fsqrt) o
              (refresh net gs)) as [[o' net'] r].
  cbn in Hstep. rewrite IH, Hstep. apply refresh_shapes.
Qed.

(** The parameters stay arrays: each keeps as many elements as its shape
    says. *)
Lemma loop_wf (wd : Qc) (flatten_step : arr) (net : source) :
  forall p step,
    Forall wf_tensor (params net) ->
    Forall wf_tensor
      (params (fst (BaseOptimizer.loop wd flatten_step p step net))).
Proof.
  unfold params.
  induction net as [| [param grad] rest IH]; intros p step Hwf; cbn; trivial.
  inversion Hwf as [| ? ? Hlen Hrest]; subst. cbn [fst] in *.
  unfold wf_tensor in Hlen |- *.
  destruct (BaseOptimizer.param_step wd flatten_step p param)
    as [[block _step] | e] eqn:Estep; cbn; trivial.
  specialize (IH (p + block)%nat (step ++ [_step]) Hrest).
  destruct (BaseOptimizer.loop wd flatten_step (p + block)
              (step ++ [_step]) rest) as [rest' r].
  cbn in *. constructor; trivial.
  unfold BaseOptimizer.param_step in Estep.
  destruct (BaseOptimizer.np_prod (shape param)) as [n | e]; [| discriminate].
  cbn [bind] in Estep.
  destruct (BaseOptimizer.aslice flatten_step p (p + n)) as [v | e];
    [| discriminate].
  cbn [bind] in Estep. unfold reshape in Estep.
  destruct (Nat.eqb_spec (length v) (prod_shape (shape param)))
    as [Hv | _]; [| discriminate].
  cbn [bind] in Estep. injection Estep as _ <-.
  cbn. rewrite !zip_with_length, length_map, Hv, Hlen.
  now rewrite !Nat.min_id.
Qed.

Lemma refresh_params (net : source) (gs : list tensor) :
  params (refresh net gs) = params net.
Proof.
  unfold params.
  revert gs. induction net as [| [p g] net IH]; intros [| g' gs]; cbn; trivial.
  now rewrite IH.
Qed.

Lemma steps_preserve_wf (fsqrt : Qc -> Qc) (gss : list (list tensor)) :
  forall o net,
    Forall wf_tensor (params net) ->
    Forall wf_tensor (params (snd (steps fsqrt o net gss))).
Proof.
  induction gss as [| gs gss IH]; intros o net Hwf; cbn [steps snd]; trivial.
  unfold step, BaseOptimizer.step.
  rewrite <- (refresh_params net gs) in Hwf.
  destruct (np_concatenate _) as [G | e]; [| now apply IH].
  destruct (_compute_step fsqrt o (Vec G)) as [o' [S | e]]; [| now apply IH].
  pose proof (loop_wf (weight_decay o') S (refresh net gs) 0 [] Hwf) as H.
  destruct (BaseOptimizer.loop _ _ _ _ _) as [net' r]. now apply IH.
Qed.

(** ** The update loop *)

Lemma slice_block {A : Type} (v : list A) (p n : nat) :
  slice v p (p + n) = firstn n (skipn p v).
Proof. unfold slice. now replace (p + n - p)%nat with n by lia. Qed.

Lemma element_count_flatten (net : source) :
  wf_source net -> element_count net = length (flatten_grads net).
Proof.
  unfold element_count, flatten_grads, ravel.
  induction 1 as [| [p g] net (Hp & Hg & Hshape) _ IH]; trivial.
  cbn [map concat fst snd] in *.
  change (list_sum (?a :: ?l)) with (a + list_sum l)%nat.
  rewrite length_app, IH. unfold wf_tensor in Hg. now rewrite Hg, Hshape.
Qed.

(** From offset [p] in a step vector that still holds an entry for every
    element, the loop records the updates of the specification and adds
    each to its parameter. *)
Lemma loop_spec (wd : Qc) (S : list Qc) (net : source) :
  forall p step,
    Forall (fun pg => shape (fst pg) <> []) net ->
    (p + element_count net <= length S)%nat ->
    BaseOptimizer.loop wd (Vec S) p step net
    = (apply_updates net (updates_of wd (skipn p S) net),
       Ok (step ++ updates_of wd (skipn p S) net)).
Proof.
  unfold element_count.
  induction net as [| [param grad] rest IH]; intros p step Hshape Hsize.
  - cbn. now rewrite app_nil_r.
  - inversion Hshape as [| ? ? Hparam Hrest]; subst. cbn in Hparam, Hsize.
    cbn [BaseOptimizer.loop].
    unfold BaseOptimizer.param_step, BaseOptimizer.np_prod,
      BaseOptimizer.aslice.
    destruct (shape param) as [| d ds] eqn:Eshape; [contradiction |].
    rewrite <- Eshape in *. cbn [bind].
    rewrite slice_block. unfold reshape.
    set (n := prod_shape (shape param)) in *.
    assert (Hlen : length (firstn n (skipn p S)) = n).
    { rewrite length_firstn, length_skipn. clearbody n.
      apply Nat.min_l. lia. }
    rewrite Hlen, Nat.eqb_refl. cbn [bind].
    rewrite (IH (p + n)%nat) by (trivial; clearbody n; unfold list_sum; lia).
    replace (skipn (p + n) S) with (skipn n (skipn p S))
      by (rewrite skipn_skipn; f_equal; lia).
    unfold updates_of, apply_updates, params.
    cbn [blocks_of map zip_with fst snd]. fold n.
    now rewrite <- app_assoc.
Qed.

Section BaseStep.
Context {Self : Type}.
Variable wd_of : Self -> Qc.
Variable rule : Self -> arr -> Self * result arr.

Lemma base_step_empty (self : Self) :
  BaseOptimizer.step wd_of rule self [] = (self, [], Raise ValueError).
Proof. reflexivity. Qed.

(** [step] on a source with a parameter, when the step rule returns a
    vector of the length of the flattened gradients. *)
Lemma base_step_spec (self self' : Self) (net : source) (S : list Qc) :
  net <> [] ->
  at_least_1d net ->
  wf_source net ->
  rule self (Vec (flatten_grads net)) = (self', Ok (Vec S)) ->
  length S = length (flatten_grads net) ->
  BaseOptimizer.step wd_of rule self net
  = (self', apply_updates net (updates_of (wd_of self') S net),
     Ok (updates_of (wd_of self') S net)).
Proof.
  intros Hne H1d Hwf Hrule Hlen. unfold BaseOptimizer.step, np_concatenate.
  destruct net as [| pg net']; [contradiction |].
  set (net := pg :: net') in *.
  change (map (fun pg0 => ravel (snd pg0)) net) with
    (map (fun pg0 => ravel (snd pg0)) (pg :: net')).
  cbn [map]. change (concat (ravel (snd pg) :: map (fun pg0 => ravel (snd pg0)) net'))
    with (flatten_grads net).
  rewrite Hrule.
  rewrite (loop_spec (wd_of self') S net 0 []).
  - reflexivity.
  - exact H1d.
  - rewrite (element_count_flatten net Hwf), Hlen. apply Nat.le_refl.
Qed.
End BaseStep.

(** ** The step rules on vectors of one length *)

Section StepRules.
Variable fsqrt : Qc -> Qc.

Lemma Momentum_compute_step_eq (self : Momentum.t) (g : list Qc) (n : nat) :
  arr_fits n (Momentum._acc self) -> length g = n ->
  let acc :=
    zip_with Qcplus
      (map (Qcmult (Momentum._momentum self)) (stretch n (Momentum._acc self)))
      g in
  Momentum._compute_step self (Vec g)
  = (Momentum.set_acc self (Vec acc),
     Ok (Vec (map (Qcmult (- Momentum.lr self)) acc))).
Proof.
  intros Hacc Hg acc. unfold Momentum._compute_step.
  rewrite (broadcast_fits_vec Qcplus n) by auto using arr_fits_amap.
  rewrite stretch_amap. reflexivity.
Qed.

Lemma Adam_compute_step_eq (self : Adam.t) (g : list Qc) (n : nat) :
  arr_fits n (Adam._m self) -> arr_fits n (Adam._v self) -> length g = n ->
  let self1 := Adam.set_t self (Adam._t self + 1) in
  let m :=
    zip_with Qcplus
      (map (Qcmult (Adam._b1 self)) (stretch n (Adam._m self)))
      (map (Qcmult (1 - Adam._b1 self)) g) in
  let v :=
    zip_with Qcplus
      (map (Qcmult (Adam._b2 self)) (stretch n (Adam._v self)))
      (map (Qcmult (1 - Adam._b2 self)) (map (fun x => x * x) g)) in
  Adam._compute_step fsqrt self (Vec g)
  = (Adam.set_v (Adam.set_m self1 (Vec m)) (Vec v),
     Ok (Vec (zip_with Qcdiv
                (map (Qcmult (- Adam.lr_t fsqrt self1)) m)
                (map (fun x => x + Adam._eps self) (map fsqrt v))))).
Proof.
  intros Hm Hv Hg self1 m v. unfold Adam._compute_step. fold self1.
  cbn [amap].
  rewrite (broadcast_fits_vec Qcplus n)
    by (try apply arr_fits_amap; trivial; now rewrite length_map).
  rewrite stretch_amap. fold m.
  cbn [Adam.set_m Adam._b2 Adam._v Adam._b1 Adam._eps Adam.lr
       Adam.weight_decay Adam._t Adam._m Adam.set_t self1].
  rewrite (broadcast_fits_vec Qcplus n)
    by (try apply arr_fits_amap; trivial; now rewrite !length_map).
  rewrite stretch_amap. fold v.
  cbn [Adam.set_v Adam.set_m Adam._b2 Adam._v Adam._b1 Adam._eps Adam.lr
       Adam.weight_decay Adam._t Adam._m amap].
  rewrite broadcast_vec_vec.
  - reflexivity.
  - rewrite !length_map. subst m v.
    rewrite !zip_with_length, !length_map, !stretch_length by trivial.
    now rewrite Hg.
Qed.

Lemma RMSProp_compute_step_eq (self : RMSProp.t) (g : list Qc) (n : nat) :
  arr_fits n (RMSProp._ms self) -> arr_fits n (RMSProp._mom self) ->
  length g = n ->
  let ms :=
    zip_with Qcplus
      (map (Qcmult (RMSProp._decay self)) (stretch n (RMSProp._ms self)))
      (map (Qcmult (1 - RMSProp._decay self)) (map (fun x => x * x) g)) in
  let mom :=
    zip_with Qcplus
      (map (Qcmult (RMSProp._momentum self)) (stretch n (RMSProp._mom self)))
      (zip_with Qcdiv
         (map (Qcmult (RMSProp.lr self)) g)
         (map fsqrt (map (fun x => x + RMSProp._eps self) ms))) in
  RMSProp._compute_step fsqrt self (Vec g)
  = (RMSProp.set_mom (RMSProp.set_ms self (Vec ms)) (Vec mom),
     Ok (Vec (map Qcopp mom))).
Proof.
  intros Hms Hmom Hg ms mom. unfold RMSProp._compute_step.
  cbn [amap].
  rewrite (broadcast_fits_vec Qcplus n)
    by (try apply arr_fits_amap; trivial; now rewrite !length_map).
  rewrite stretch_amap. fold ms.
  cbn [RMSProp.set_ms RMSProp._ms RMSProp._mom RMSProp._eps RMSProp.lr
       RMSProp._momentum amap].
  assert (Hlen : length ms = n).
  { subst ms. apply zip_with_length_eq; rewrite !length_map; trivial.
    now apply stretch_length. }
  rewrite broadcast_vec_vec by (rewrite !length_map; congruence).
  cbn [bind].
  rewrite (broadcast_fits_vec Qcplus n).
  - rewrite stretch_amap. reflexivity.
  - now apply arr_fits_amap.
  - apply zip_with_length_eq; rewrite !length_map; congruence.
Qed.

(** With accumulators that fit, every step rule returns a step vector of
    the length of the gradient vector, keeps [lr] and [weight_decay], and
    leaves accumulators that fit. *)
Lemma compute_step_fits (o : optimizer) (g : list Qc) (n : nat) :
  compatible n o -> length g = n ->
  exists o' S,
    _compute_step fsqrt o (Vec g) = (o', Ok (Vec S)) /\
    length S = n /\ compatible n o' /\
    weight_decay o' = weight_decay o /\ lr o' = lr o.
Proof.
  intros Hc Hg. destruct o as [o | o | o | o]; cbn [_compute_step compatible] in *.
  - eexists _, _. split; [reflexivity |]. cbn.
    now rewrite length_map.
  - destruct Hc as [Hm Hv].
    rewrite (Adam_compute_step_eq o g n Hm Hv Hg). cbv zeta.
    eexists _, _. split; [reflexivity |].
    assert (Hlm : forall b a, arr_fits n a ->
      length (zip_with Qcplus (map (Qcmult b) (stretch n a))
                (map (Qcmult (1 - b)) g)) = n).
    { intros b a Ha. apply zip_with_length_eq; rewrite !length_map; trivial.
      now apply stretch_length. }
    assert (Hlv : forall b a, arr_fits n a ->
      length (zip_with Qcplus (map (Qcmult b) (stretch n a))
                (map (Qcmult (1 - b)) (map (fun x => x * x) g))) = n).
    { intros b a Ha. apply zip_with_length_eq; rewrite !length_map; trivial.
      now apply stretch_length. }
    cbn. repeat split; auto.
    apply zip_with_length_eq; rewrite !length_map; auto.
  - destruct Hc as [Hms Hmom].
    rewrite (RMSProp_compute_step_eq o g n Hms Hmom Hg). cbv zeta.
    eexists _, _. split; [reflexivity |].
    assert (Hlms :
      length (zip_with Qcplus
                (map (Qcmult (RMSProp._decay o)) (stretch n (RMSProp._ms o)))
                (map (Qcmult (1 - RMSProp._decay o))
                   (map (fun x => x * x) g))) = n).
    { apply zip_with_length_eq; rewrite !length_map; trivial.
      now apply stretch_length. }
    assert (Hlmom : forall q, length q = n ->
      length (zip_with Qcplus
                (map (Qcmult (RMSProp._momentum o))
                   (stretch n (RMSProp._mom o))) q) = n).
    { intros q Hq. apply zip_with_length_eq; trivial.
      rewrite length_map. now apply stretch_length. }
    assert (Hq :
      length (zip_with Qcdiv (map (Qcmult (RMSProp.lr o)) g)
                (map fsqrt (map (fun x => x + RMSProp._eps o)
                   (zip_with Qcplus
                      (map (Qcmult (RMSProp._decay o))
                         (stretch n (RMSProp._ms o)))
                      (map (Qcmult (1 - RMSProp._decay o))
                         (map (fun x => x * x) g)))))) = n).
    { apply zip_with_length_eq; rewrite !length_map; trivial. }
    cbn. repeat split; auto. rewrite length_map. auto.
  - rewrite (Momentum_compute_step_eq o g n Hc Hg). cbv zeta.
    eexists _, _. split; [reflexivity |].
    assert (Hl :
      length (zip_with Qcplus
                (map (Qcmult (Momentum._momentum o))
                   (stretch n (Momentum._acc o))) g) = n).
    { apply zip_with_length_eq; trivial.
      rewrite length_map. now apply stretch_length. }
    cbn. repeat split; auto. now rewrite length_map.
Qed.

End StepRules.

(** ** One call of [step] *)

Lemma firstn_app_exact {A : Type} (n : nat) (l1 l2 : list A) :
  length l1 = n -> firstn n (l1 ++ l2) = l1.
Proof.
  intros <-. rewrite firstn_app, Nat.sub_diag, firstn_all. cbn.
  apply app_nil_r.
Qed.

Lemma skipn_app_exact {A : Type} (n : nat) (l1 l2 : list A) :
  length l1 = n -> skipn n (l1 ++ l2) = l2.
Proof.
  intros <-. rewrite skipn_app, Nat.sub_diag, skipn_all. reflexivity.
Qed.

(** [step] on a source whose first parameter is a zero-dimensional array:
    [np.prod(())] is the float [1.0], the slice raises [TypeError] and no
    parameter is changed. *)
Lemma base_step_scalar_first {Self : Type} (wd_of : Self -> Qc)
    (rule : Self -> arr -> Self * result arr) (self self' : Self)
    (param grad : tensor) (rest : source) (flatten_step : arr) :
  shape param = [] ->
  rule self (Vec (flatten_grads ((param, grad) :: rest)))
  = (self', Ok flatten_step) ->
  BaseOptimizer.step wd_of rule self ((param, grad) :: rest)
  = (self', (param, grad) :: rest, Raise TypeError).
Proof.
  intros Hshape Hrule. unfold BaseOptimizer.step, np_concatenate.
  cbn [map].
  change (concat (ravel (snd (param, grad))
                  :: map (fun pg0 => ravel (snd pg0)) rest))
    with (flatten_grads ((param, grad) :: rest)).
  rewrite Hrule. cbn [BaseOptimizer.loop].
  unfold BaseOptimizer.param_step, BaseOptimizer.np_prod.
  rewrite Hshape. reflexivity.
Qed.

(** C2, as the code has it: on a source without parameters [step] raises
    [ValueError], whatever the optimizer; on a source with at least one
    parameter, no parameter zero-dimensional, with gradients shaped like
    their parameters and an optimizer whose accumulators fit, one call of
    [step] takes for each parameter the next entries of the step vector,
    as many as the parameter has elements, in the parameter's shape,
    subtracts [weight_decay] times the parameter, adds the result to the
    parameter and returns these updates in order. *)
Theorem step_applies_recorded_updates (fsqrt : Qc -> Qc) (o : optimizer)
    (net : source) :
  step fsqrt o [] = (o, [], Raise ValueError) /\
  (net <> [] ->
   at_least_1d net ->
   wf_source net ->
   compatible (length (flatten_grads net)) o ->
   exists o' S,
     _compute_step fsqrt o (Vec (flatten_grads net)) = (o', Ok (Vec S)) /\
     length S = length (flatten_grads net) /\
     step fsqrt o net
     = (o', apply_updates net (updates_of (weight_decay o) S net),
        Ok (updates_of (weight_decay o) S net))).
Proof.
  split; [reflexivity |].
  intros Hne H1d Hwf Hc.
  destruct (compute_step_fits fsqrt o (flatten_grads net) _ Hc eq_refl)
    as (o' & S & Hrule & Hlen & _ & Hwd & _).
  exists o', S. repeat split; trivial.
  unfold step.
  rewrite (base_step_spec weight_decay (_compute_step fsqrt) o o' net S)
    by trivial.
  now rewrite Hwd.
Qed.

(** C2 as stated fails on the source without parameters: [np.concatenate]
    refuses the empty list of gradients and [step] raises instead of
    returning the empty sequence of updates.  It fails as well on a
    source with a zero-dimensional parameter, where [step] raises
    [TypeError]. *)
Lemma step_empty_source_raises :
  step (fun x => x) (OSGD (SGD.__init__ 1 0)) []
  = (OSGD (SGD.__init__ 1 0), [], Raise ValueError) /\
  (~ exists o' net' updates,
       step (fun x => x) (OSGD (SGD.__init__ 1 0)) []
       = (o', net', Ok updates)) /\
  wf_source scalar_net /\
  step (fun x => x) (OSGD (SGD.__init__ 1 0)) scalar_net
  = (OSGD (SGD.__init__ 1 0), scalar_net, Raise TypeError).
Proof.
  split; [reflexivity |]. split.
  - intros (o' & net' & updates & H). discriminate H.
  - split; [exact scalar_net_wf | reflexivity].
Qed.

Lemma data_decay_old (wd : Qc) (dp : list Qc) :
  forall db,
    zip_with Qcplus dp (zip_with Qcminus db (map (Qcmult wd) dp))
    = zip_with Qcplus (map (Qcmult (1 - wd)) dp) db.
Proof.
  induction dp as [| x dp IH]; intros [| b db]; cbn; trivial.
  rewrite IH. f_equal. ring.
Qed.

Lemma tadd_decay_old (wd : Qc) (old blk : tensor) :
  tadd old (tsub blk (tscale wd old)) = tadd (tscale (1 - wd) old) blk.
Proof.
  unfold tadd, tsub, tzip, tscale. cbn. f_equal. apply data_decay_old.
Qed.

(** The parameters after the updates [f blk old] have been added. *)
Lemma params_apply_updates_with (f : tensor -> tensor -> tensor)
    (net : source) :
  forall B,
    params (apply_updates net (zip_with f B (params net)))
    = zip_with (fun blk old => tadd old (f blk old)) B (params net).
Proof.
  unfold params, apply_updates.
  induction net as [| [p g] net IH]; intros [| b B]; cbn; trivial.
  now rewrite IH.
Qed.

(** In exact arithmetic the same parameters are [(1 - wd) * old + blk]. *)
Lemma params_apply_updates (wd : Qc) (net : source) :
  forall B,
    params (apply_updates net
              (zip_with (fun blk old => tsub blk (tscale wd old))
                        B (params net)))
    = zip_with (fun blk old => tadd (tscale (1 - wd) old) blk) B (params net).
Proof.
  unfold params, apply_updates.
  induction net as [| [p g] net IH]; intros [| b B]; cbn; trivial.
  now rewrite IH, tadd_decay_old.
Qed.

Section WeightDecay.
Context {Self : Type}.
Variable wd_of : Self -> Qc.
Variable rule : Self -> arr -> Self * result arr.

(** C10, as the code has it: in a call of [step] on a source with no
    zero-dimensional parameter, whose step rule returns a vector [S] of
    the length of the flattened gradients, with [B] the blocks of [S] in
    the parameters' shapes, the update recorded for a parameter is
    [B - weight_decay * old] for its value [old] before the call, and
    the parameter ends as [old + (B - weight_decay * old)], computed in
    that order. *)
Theorem step_decays_old_value (self self' : Self) (net : source)
    (S : list Qc) :
  at_least_1d net ->
  wf_source net ->
  rule self (Vec (flatten_grads net)) = (self', Ok (Vec S)) ->
  length S = length (flatten_grads net) ->
  let wd := wd_of self' in
  let B := blocks_of S net in
  params (snd (fst (BaseOptimizer.step wd_of rule self net)))
  = zip_with (fun blk old => tadd old (tsub blk (tscale wd old)))
      B (params net) /\
  (net <> [] ->
   snd (BaseOptimizer.step wd_of rule self net)
   = Ok (zip_with (fun blk old => tsub blk (tscale wd old)) B (params net))).
Proof.
  intros H1d Hwf Hrule Hlen.
  destruct net as [| pg net'].
  - split; [reflexivity | intros H; now elim H].
  - assert (Hne : pg :: net' <> []) by discriminate.
    remember (pg :: net') as net eqn:Enet. intros wd B.
    rewrite (base_step_spec wd_of rule self self' net S Hne H1d Hwf Hrule
               Hlen).
    cbn [fst snd]. split; [| reflexivity].
    apply (params_apply_updates_with
             (fun blk old => tsub blk (tscale (wd_of self') old))).
Qed.
End WeightDecay.

(** C10 as stated fails on a source with a zero-dimensional parameter:
    the step rule returns its vector, [step] raises [TypeError], records
    no update, and the parameter keeps its old value, which is not
    [(1 - weight_decay) * old + B]. *)
Lemma step_scalar_parameter_keeps_old :
  let sgd := OSGD (SGD.__init__ 1 q2) in
  let B := mkTensor [] [- (1) * 1] in
  wf_source scalar_net /\
  _compute_step (fun x => x) sgd (Vec (flatten_grads scalar_net))
  = (sgd, Ok (Vec [- (1) * 1])) /\
  step (fun x => x) sgd scalar_net = (sgd, scalar_net, Raise TypeError) /\
  params (snd (fst (step (fun x => x) sgd scalar_net)))
  <> [tadd (tscale (1 - q2) (mkTensor [] [q2])) B].
Proof.
  cbv zeta. split; [exact scalar_net_wf |]. split; [reflexivity |].
  split; [reflexivity |].
  intros H.
  apply (f_equal (map (fun t => map this (data t)))) in H.
  vm_compute in H. discriminate H.
Qed.

(** ** SGD *)

Lemma blocks_of_map_flatten (f : Qc -> Qc) (net : source) :
  wf_source net ->
  blocks_of (map f (flatten_grads net)) net
  = map (fun pg => mkTensor (shape (fst pg)) (map f (data (snd pg)))) net.
Proof.
  unfold flatten_grads, ravel.
  induction 1 as [| [p g] net (Hp & Hg & Hshape) _ IH]; trivial.
  cbn [map concat fst snd blocks_of] in *.
  assert (Hn : length (data g) = prod_shape (shape p)).
  { unfold wf_tensor in Hg. now rewrite Hg, Hshape. }
  rewrite !map_app.
  rewrite firstn_app_exact, skipn_app_exact by now rewrite length_map.
  now rewrite IH.
Qed.

Lemma data_sgd (lr0 : Qc) (dp : list Qc) :
  forall dg,
    zip_with Qcplus (map (Qcmult (1 - 0)) dp) (map (Qcmult (- lr0)) dg)
    = zip_with Qcminus dp (map (Qcmult lr0) dg).
Proof.
  induction dp as [| x dp IH]; intros [| y dg]; cbn; trivial.
  rewrite IH. f_equal. ring.
Qed.

(** C5, as the code has it: after one call of [step] of an SGD
    optimizer with [weight_decay = 0] on a source with no zero-dimensional
    parameter, whose gradients are shaped like their parameters, every
    parameter is its old value minus [lr] times its gradient; the call
    returns when the source has a parameter. *)
Theorem SGD_step_without_weight_decay (fsqrt : Qc -> Qc) (lr0 : Qc)
    (net : source) :
  at_least_1d net ->
  wf_source net ->
  params (snd (fst (step fsqrt (OSGD (SGD.__init__ lr0 0)) net)))
  = map (fun pg => tsub (fst pg) (tscale lr0 (snd pg))) net /\
  (net <> [] ->
   exists updates,
     snd (step fsqrt (OSGD (SGD.__init__ lr0 0)) net) = Ok updates).
Proof.
  intros H1d Hwf. unfold step.
  destruct net as [| pg net'].
  - split; [reflexivity | intros H; now elim H].
  - assert (Hne : pg :: net' <> []) by discriminate.
    remember (pg :: net') as net eqn:Enet.
    rewrite (base_step_spec weight_decay (_compute_step fsqrt)
               (OSGD (SGD.__init__ lr0 0)) (OSGD (SGD.__init__ lr0 0)) net
               (map (Qcmult (- lr0)) (flatten_grads net)) Hne H1d Hwf eq_refl)
      by apply length_map.
    cbn [fst snd]. split; [| intros _; eexists; reflexivity].
    unfold updates_of. rewrite params_apply_updates.
    cbn [weight_decay SGD.weight_decay SGD.__init__].
    rewrite blocks_of_map_flatten by trivial.
    unfold params. clear. induction net as [| [p g] net IH]; cbn; trivial.
    rewrite IH. f_equal.
    unfold tadd, tsub, tzip, tscale. cbn. f_equal. apply data_sgd.
Qed.

(** C5 as stated fails on a source with a zero-dimensional parameter:
    [step] raises [TypeError] and the parameter keeps its old value
    instead of becoming [old - lr * grad]. *)
Lemma SGD_step_scalar_parameter_raises :
  let sgd := OSGD (SGD.__init__ 1 0) in
  wf_source scalar_net /\
  step (fun x => x) sgd scalar_net = (sgd, scalar_net, Raise TypeError) /\
  params (snd (fst (step (fun x => x) sgd scalar_net)))
  <> map (fun pg => tsub (fst pg) (tscale 1 (snd pg))) scalar_net.
Proof.
  cbv zeta. split; [exact scalar_net_wf |]. split; [reflexivity |].
  intros H.
  apply (f_equal (map (fun t => map this (data t)))) in H.
  vm_compute in H. discriminate H.
Qed.

(** ** Momentum *)

Lemma zero_momentum_acc (xs : list Qc) :
  forall g, length xs = length g ->
    zip_with Qcplus (map (Qcmult 0) xs) g = g.
Proof.
  induction xs as [| x xs IH]; intros [| y g] Hlen; cbn in *;
    try discriminate; trivial.
  rewrite IH by lia. f_equal. ring.
Qed.

Lemma Momentum_zero_run (n : nat) (gs : list (list Qc)) :
  Forall (fun g => length g = n) gs ->
  forall self,
    Momentum._momentum self = 0 -> arr_fits n (Momentum._acc self) ->
    snd (run_rule Momentum._compute_step self gs)
    = map (fun g => Ok (Vec (map (Qcmult (- Momentum.lr self)) g))) gs.
Proof.
  induction 1 as [| g gs Hg _ IH]; intros self Hzero Hacc; trivial.
  cbn [run_rule map].
  rewrite (Momentum_compute_step_eq self g n Hacc Hg). cbv zeta.
  rewrite Hzero, zero_momentum_acc
    by (rewrite (stretch_length n _ Hacc); congruence).
  specialize (IH (Momentum.set_acc self (Vec g)) Hzero Hg).
  destruct (run_rule Momentum._compute_step (Momentum.set_acc self (Vec g)) gs)
    as [self'' rs].
  cbn [snd] in *. now rewrite IH.
Qed.

Lemma SGD_run (self : SGD.t) (gs : list (list Qc)) :
  snd (run_rule SGD._compute_step self gs)
  = map (fun g => Ok (Vec (map (Qcmult (- SGD.lr self)) g))) gs.
Proof.
  induction gs as [| g gs IH]; trivial.
  cbn [run_rule SGD._compute_step map].
  destruct (run_rule SGD._compute_step self gs) as [self'' rs].
  cbn [snd amap] in *. now rewrite IH.
Qed.

(** C6: on the flattened gradient vectors of one source, call after call,
    a Momentum optimizer created with [momentum = 0] returns the step
    vector SGD returns with the same learning rate, [-lr * grad]. *)
Theorem Momentum_zero_is_SGD (lr0 wd wd' : Qc) (n : nat)
    (gs : list (list Qc)) :
  Forall (fun g => length g = n) gs ->
  snd (run_rule Momentum._compute_step (Momentum.__init__ lr0 0 wd) gs)
  = snd (run_rule SGD._compute_step (SGD.__init__ lr0 wd') gs) /\
  snd (run_rule Momentum._compute_step (Momentum.__init__ lr0 0 wd) gs)
  = map (fun g => Ok (Vec (map (Qcmult (- lr0)) g))) gs.
Proof.
  intros Hgs.
  rewrite SGD_run, (Momentum_zero_run n gs Hgs) by (cbn; trivial).
  split; reflexivity.
Qed.

(** ** Adam *)

Section AdamRefinement.
Variable fsqrt : Qc -> Qc.
Variables lr0 beta1 beta2 eps : Qc.

Lemma adam_sim_init (wd : Qc) (n : nat) :
  adam_sim lr0 beta1 beta2 eps n (Adam.__init__ lr0 beta1 beta2 eps wd)
    (AdamSpec.init n).
Proof. repeat split. Qed.

(** One call: the code and the recurrence return the same step and stay
    related. *)
Lemma adam_sim_step (n : nat) (self : Adam.t) (s : AdamSpec.state)
    (g : list Qc) :
  adam_sim lr0 beta1 beta2 eps n self s -> length g = n ->
  snd (Adam._compute_step fsqrt self (Vec g))
  = Ok (Vec (snd (AdamSpec.update fsqrt lr0 beta1 beta2 eps s g))) /\
  adam_sim lr0 beta1 beta2 eps n
    (fst (Adam._compute_step fsqrt self (Vec g)))
    (fst (AdamSpec.update fsqrt lr0 beta1 beta2 eps s g)).
Proof.
  intros (Hlr & Hb1 & Hb2 & Heps & Ht & Hm & Hsm & Hv & Hsv) Hg.
  rewrite (Adam_compute_step_eq fsqrt self g n Hm Hv Hg). cbv zeta.
  unfold AdamSpec.update, Adam.lr_t.
  cbn [fst snd Adam.set_t Adam.set_m Adam.set_v Adam.lr Adam._b1 Adam._b2
       Adam._eps Adam._t Adam._m Adam._v Adam.weight_decay
       AdamSpec.t AdamSpec.m AdamSpec.v].
  rewrite Hlr, Hb1, Hb2, Heps, Ht, Hsm, Hsv, Nat.add_1_r.
  rewrite !map_map, !zip_with_map.
  assert (Hlm : length (zip_with (fun m g0 => beta1 * m + (1 - beta1) * g0)
                          (AdamSpec.m s) g) = n).
  { apply zip_with_length_eq; trivial.
    rewrite <- Hsm. now apply stretch_length. }
  assert (Hlv : length (zip_with
                          (fun v g0 => beta2 * v + (1 - beta2) * (g0 * g0))
                          (AdamSpec.v s) g) = n).
  { apply zip_with_length_eq; trivial.
    rewrite <- Hsv. now apply stretch_length. }
  split; [reflexivity |].
  unfold adam_sim.
  cbn [Adam.lr Adam._b1 Adam._b2 Adam._eps Adam._t Adam._m Adam._v
       AdamSpec.t AdamSpec.m AdamSpec.v arr_fits stretch].
  repeat split; trivial.
Qed.

Lemma adam_sim_run (n : nat) (gs : list (list Qc)) :
  Forall (fun g => length g = n) gs ->
  forall self s,
    adam_sim lr0 beta1 beta2 eps n self s ->
    snd (run_rule (Adam._compute_step fsqrt) self gs)
    = map (fun step => Ok (Vec step))
          (snd (AdamSpec.run fsqrt lr0 beta1 beta2 eps s gs)) /\
    adam_sim lr0 beta1 beta2 eps n
      (fst (run_rule (Adam._compute_step fsqrt) self gs))
      (fst (AdamSpec.run fsqrt lr0 beta1 beta2 eps s gs)) /\
    AdamSpec.t (fst (AdamSpec.run fsqrt lr0 beta1 beta2 eps s gs))
    = (AdamSpec.t s + length gs)%nat.
Proof.
  induction 1 as [| g gs Hg _ IH]; intros self s Hsim.
  - split; [reflexivity |]. split; [exact Hsim |].
    cbn [AdamSpec.run fst length]. lia.
  - cbn [run_rule AdamSpec.run].
    destruct (adam_sim_step n self s g Hsim Hg) as [Hstep Hsim'].
    destruct (Adam._compute_step fsqrt self (Vec g)) as [self' r].
    pose proof (eq_refl : AdamSpec.t
                  (fst (AdamSpec.update fsqrt lr0 beta1 beta2 eps s g))
                = S (AdamSpec.t s)) as Ht.
    destruct (AdamSpec.update fsqrt lr0 beta1 beta2 eps s g) as [s' step].
    cbn [fst snd] in *. subst r.
    destruct (IH self' s' Hsim') as (Hrs & Hsim'' & Hcount).
    destruct (run_rule (Adam._compute_step fsqrt) self' gs) as [self'' rs].
    destruct (AdamSpec.run fsqrt lr0 beta1 beta2 eps s' gs) as [s'' steps].
    cbn [fst snd map length] in *. subst rs.
    split; [reflexivity |]. split; [exact Hsim'' |]. lia.
Qed.

(** C3: an Adam object is created with [t = 0], [m = 0], [v = 0], and on
    the flattened gradient vectors of one source its calls of
    [_compute_step] return, call after call, the steps of the recurrence:
    [t += 1], [lr_t = lr * sqrt(1 - beta2^t) / (1 - beta1^t)],
    [m = beta1*m + (1 - beta1)*grad], [v = beta2*v + (1 - beta2)*grad^2],
    [step = -lr_t * m / (sqrt(v) + eps)]; after the calls the object holds
    the recurrence's [t], the number of calls, and its [m] and [v]. *)
Theorem Adam_compute_step_is_recurrence (wd : Qc) (n : nat)
    (gs : list (list Qc)) :
  Forall (fun g => length g = n) gs ->
  let adam := Adam.__init__ lr0 beta1 beta2 eps wd in
  let code := run_rule (Adam._compute_step fsqrt) adam gs in
  let spec := AdamSpec.run fsqrt lr0 beta1 beta2 eps (AdamSpec.init n) gs in
  (Adam._t adam = 0%nat /\ Adam._m adam = Scalar 0 /\ Adam._v adam = Scalar 0) /\
  snd code = map (fun step => Ok (Vec step)) (snd spec) /\
  Adam._t (fst code) = length gs /\
  Adam._t (fst code) = AdamSpec.t (fst spec) /\
  stretch n (Adam._m (fst code)) = AdamSpec.m (fst spec) /\
  stretch n (Adam._v (fst code)) = AdamSpec.v (fst spec).
Proof.
  intros Hgs adam code spec.
  destruct (adam_sim_run n gs Hgs adam (AdamSpec.init n) (adam_sim_init wd n))
    as (Hsteps & Hsim & Hcount).
  fold code spec in Hsteps, Hsim, Hcount.
  destruct Hsim as (_ & _ & _ & _ & Ht & _ & Hm & _ & Hv).
  repeat split; trivial.
  rewrite Ht, Hcount. reflexivity.
Qed.

End AdamRefinement.

(** ** The theorems at the example objects *)

Lemma example_gradients_length :
  Forall (fun g : list Qc => length g = 2%nat) example_gradients.
Proof. repeat constructor. Qed.

Lemma step_applies_recorded_updates_witness :
  exists o' S,
    _compute_step (fun x => x) (OMomentum (Momentum.__init__ 1 q2 q2))
      (Vec (flatten_grads example_net)) = (o', Ok (Vec S)) /\
    length S = length (flatten_grads example_net) /\
    step (fun x => x) (OMomentum (Momentum.__init__ 1 q2 q2)) example_net
    = (o', apply_updates example_net (updates_of q2 S example_net),
       Ok (updates_of q2 S example_net)).
Proof.
  apply (proj2 (step_applies_recorded_updates (fun x => x)
                  (OMomentum (Momentum.__init__ 1 q2 q2)) example_net)).
  - discriminate.
  - exact example_net_1d.
  - exact example_net_wf.
  - exact I.
Defined.

Lemma step_decays_old_value_witness :
  params (snd (fst (BaseOptimizer.step weight_decay
                      (_compute_step (fun x => x))
                      (OSGD (SGD.__init__ 1 q2)) example_net)))
  = zip_with (fun blk old => tadd old (tsub blk (tscale q2 old)))
      (blocks_of (map (Qcmult (- (1))) (flatten_grads example_net))
         example_net)
      (params example_net).
Proof.
  apply (step_decays_old_value weight_decay (_compute_step (fun x => x))
           (OSGD (SGD.__init__ 1 q2)) (OSGD (SGD.__init__ 1 q2))
           example_net
           (map (Qcmult (- (1))) (flatten_grads example_net))).
  - exact example_net_1d.
  - exact example_net_wf.
  - reflexivity.
  - apply length_map.
Defined.

Lemma SGD_step_without_weight_decay_witness :
  params (snd (fst (step (fun x => x) (OSGD (SGD.__init__ q2 0))
                      example_net)))
  = map (fun pg => tsub (fst pg) (tscale q2 (snd pg))) example_net.
Proof.
  apply (SGD_step_without_weight_decay (fun x => x) q2 example_net).
  - exact example_net_1d.
  - exact example_net_wf.
Defined.

Lemma Momentum_zero_is_SGD_witness :
  snd (run_rule Momentum._compute_step (Momentum.__init__ q2 0 0)
         example_gradients)
  = snd (run_rule SGD._compute_step (SGD.__init__ q2 0) example_gradients).
Proof.
  apply (Momentum_zero_is_SGD q2 0 0 2 example_gradients).
  exact example_gradients_length.
Defined.

Lemma Adam_compute_step_is_recurrence_witness :
  snd (run_rule (Adam._compute_step (fun x => x))
         (Adam.__init__ 1 q2 q2 1 0) example_gradients)
  = map (fun step => Ok (Vec step))
      (snd (AdamSpec.run (fun x => x) 1 q2 q2 1 (AdamSpec.init 2)
              example_gradients)).
Proof.
  apply (Adam_compute_step_is_recurrence (fun x => x) 1 q2 q2 1 0 2
           example_gradients).
  exact example_gradients_length.
Defined.

(** * Further properties of the code *)

(** ** [BaseScheduler.step], whatever the policy *)

Lemma weight_decay_set_lr (o : optimizer) (x : Qc) :
  weight_decay (set_lr o x) = weight_decay o.
Proof. destruct o; reflexivity. Qed.

Section AnyPolicy.
Context {Self : Type}.
Variable base : Self -> BaseScheduler.t.
Variable set_base : Self -> BaseScheduler.t -> Self.
Variable _compute_lr : Self -> heap -> result Qc.
Hypothesis base_set_base : forall self b, base (set_base self b) = b.

(** [step] increments the counter and then asks the policy: [_compute_lr]
    is called on the object that already holds the incremented counter,
    with the optimizers as they are.  When the policy raises, [step]
    raises the same exception and leaves every optimizer as it was (the
    counter stays incremented); when the policy returns [v], [step]
    writes [v] as the [lr] of the wrapped optimizer, keeps its
    [weight_decay], touches no other optimizer and returns [v]; without a
    wrapped optimizer it raises [AttributeError]. *)
Theorem BaseScheduler_step_commits_once (self : Self) (h : heap) :
  let self1 :=
    set_base self
      (BaseScheduler.set_t (base self) (BaseScheduler._t (base self) + 1)) in
  let res := BaseScheduler.step base set_base _compute_lr self h in
  fst (fst res) = self1 /\
  BaseScheduler._t (base (fst (fst res)))
  = (BaseScheduler._t (base self) + 1)%Z /\
  (forall e, _compute_lr self1 h = Raise e -> res = (self1, h, Raise e)) /\
  (forall v, _compute_lr self1 h = Ok v ->
     BaseScheduler._optim (base self) = None ->
     res = (self1, h, Raise AttributeError)) /\
  (forall v r, _compute_lr self1 h = Ok v ->
     BaseScheduler._optim (base self) = Some r ->
     res = (self1, upd h r (set_lr (h r) v), Ok v)) /\
  (forall e, snd res = Raise e -> snd (fst res) = h) /\
  (forall v, snd res = Ok v ->
     exists r,
       BaseScheduler._optim (base self) = Some r /\
       _compute_lr self1 h = Ok v /\
       lr (snd (fst res) r) = v /\
       weight_decay (snd (fst res) r) = weight_decay (h r) /\
       forall r', r' <> r -> snd (fst res) r' = h r').
Proof.
  intros self1 res. subst res. unfold BaseScheduler.step. fold self1.
  assert (Hopt1 : BaseScheduler._optim (base self1)
                  = BaseScheduler._optim (base self)).
  { subst self1. now rewrite base_set_base. }
  assert (Ht1 : BaseScheduler._t (base self1)
                = (BaseScheduler._t (base self) + 1)%Z).
  { subst self1. now rewrite base_set_base. }
  rewrite Hopt1.
  destruct (_compute_lr self1 h) as [new_lr | e]; cbn [fst snd].
  - destruct (BaseScheduler._optim (base self)) as [r |] eqn:Hopt;
      cbn [fst snd BaseScheduler.get_current_lr].
    + rewrite upd_same, lr_set_lr.
      split; [reflexivity |]. split; [exact Ht1 |].
      split; [intros e H; discriminate H |].
      split; [intros v _ H; discriminate H |].
      split; [intros v r0 Hv Hr; injection Hv as <-; injection Hr as <-;
              reflexivity |].
      split; [intros e H; discriminate H |].
      intros v Hv. injection Hv as <-. exists r.
      rewrite upd_same, lr_set_lr, weight_decay_set_lr.
      repeat split. intros r' Hne. now apply upd_other.
    + split; [reflexivity |]. split; [exact Ht1 |].
      split; [intros e H; discriminate H |].
      split; [intros v _ _; reflexivity |].
      split; [intros v r0 _ H; discriminate H |].
      split; [reflexivity | intros v H; discriminate H].
  - split; [reflexivity |]. split; [exact Ht1 |].
    split; [intros e0 H; injection H as <-; reflexivity |].
    split; [intros v H; discriminate H |].
    split; [intros v r0 H; discriminate H |].
    split; [reflexivity | intros v H; discriminate H].
Qed.
End AnyPolicy.

Lemma BaseScheduler_step_commits_once_witness :
  BaseScheduler._t
    (StepLR.base (fst (fst (StepLR.step stepLR_example stepLR_example_heap))))
  = (BaseScheduler._t (StepLR.base stepLR_example) + 1)%Z.
Proof.
  apply (BaseScheduler_step_commits_once StepLR.base StepLR.set_base
           StepLR._compute_lr (fun _ _ => eq_refl)
           stepLR_example stepLR_example_heap).
Defined.

(** ** MultiStepLR *)

Lemma MultiStepLR_step_eq (self : MultiStepLR.t) (h : heap) (r : ref) :
  BaseScheduler._optim (MultiStepLR.base self) = Some r ->
  let t' := (BaseScheduler._t (MultiStepLR.base self) + 1)%Z in
  let new_lr :=
    (if existsb (Z.eqb t') (MultiStepLR._milestones self)
     then MultiStepLR._gamma self else 1) * lr (h r) in
  MultiStepLR.step self h =
    (MultiStepLR.set_base self
       (BaseScheduler.set_t (MultiStepLR.base self) t'),
     upd h r (set_lr (h r) new_lr),
     Ok new_lr).
Proof.
  intros Hopt t' new_lr.
  unfold MultiStepLR.step, BaseScheduler.step, MultiStepLR._compute_lr.
  cbn [MultiStepLR.base MultiStepLR.set_base MultiStepLR._milestones
       MultiStepLR._gamma BaseScheduler._optim BaseScheduler._t
       BaseScheduler.set_t].
  rewrite Hopt. cbn [bind BaseScheduler.get_current_lr].
  fold t'. fold new_lr.
  now rewrite upd_same, lr_set_lr.
Qed.

(** A call of [MultiStepLR.step] writes and returns the current learning
    rate times [gamma] when the incremented counter is one of the
    milestones, and the current learning rate as it is otherwise. *)
Theorem MultiStepLR_step_decays_at_milestones
    (self : MultiStepLR.t) (h : heap) (r : ref) :
  BaseScheduler._optim (MultiStepLR.base self) = Some r ->
  let t' := (BaseScheduler._t (MultiStepLR.base self) + 1)%Z in
  exists self' h' new_lr,
    MultiStepLR.step self h = (self', h', Ok new_lr) /\
    BaseScheduler._t (MultiStepLR.base self') = t' /\
    MultiStepLR._milestones self' = MultiStepLR._milestones self /\
    lr (h' r) = new_lr /\
    (In t' (MultiStepLR._milestones self) ->
     new_lr = MultiStepLR._gamma self * lr (h r)) /\
    (~ In t' (MultiStepLR._milestones self) -> new_lr = lr (h r)).
Proof.
  intros Hopt t'.
  pose proof (MultiStepLR_step_eq self h r Hopt) as Hstep.
  cbv zeta in Hstep. fold t' in Hstep.
  eexists _, _, _. split; [exact Hstep |].
  cbn [MultiStepLR.base MultiStepLR.set_base MultiStepLR._milestones
       BaseScheduler._t BaseScheduler.set_t].
  split; [reflexivity |]. split; [reflexivity |].
  split; [now rewrite upd_same, lr_set_lr |].
  destruct (existsb (Z.eqb t') (MultiStepLR._milestones self)) eqn:E.
  - split; [reflexivity |]. intros Hnot. exfalso. apply Hnot.
    apply existsb_exists in E as (x & Hin & Hx).
    apply Z.eqb_eq in Hx. now subst x.
  - split; [| intros _; ring]. intros Hin. exfalso.
    assert (existsb (Z.eqb t') (MultiStepLR._milestones self) = true) as E'.
    { apply existsb_exists. exists t'. split; [exact Hin | apply Z.eqb_refl]. }
    congruence.
Qed.

Lemma MultiStepLR_step_decays_at_milestones_witness :
  exists self' h' new_lr,
    MultiStepLR.step multiStepLR_example stepLR_example_heap
    = (self', h', Ok new_lr) /\
    new_lr = Q2Qc (1 # 10) * lr (stepLR_example_heap 0%nat).
Proof.
  destruct (MultiStepLR_step_decays_at_milestones multiStepLR_example
              stepLR_example_heap 0%nat eq_refl)
    as (self' & h' & new_lr & Hstep & _ & _ & _ & Hdecay & _).
  exists self', h', new_lr. split; [exact Hstep |].
  apply Hdecay. cbn. auto.
Defined.

(** Once the counter has reached every milestone, no later call of
    [MultiStepLR.step] changes the learning rate: each returns the
    learning rate the optimizer has. *)
Theorem MultiStepLR_constant_after_last_milestone (r : ref) (n : nat) :
  forall (self : MultiStepLR.t) (h : heap),
    BaseScheduler._optim (MultiStepLR.base self) = Some r ->
    Forall (fun m => (m <= BaseScheduler._t (MultiStepLR.base self))%Z)
           (MultiStepLR._milestones self) ->
    lr_sequence MultiStepLR.step n self h = repeat (Ok (lr (h r))) n.
Proof.
  induction n as [| n IH]; intros self h Hopt Hpast; trivial.
  cbn [lr_sequence repeat].
  rewrite (MultiStepLR_step_eq self h r Hopt). cbv zeta.
  assert (E : existsb (Z.eqb (BaseScheduler._t (MultiStepLR.base self) + 1))
                (MultiStepLR._milestones self) = false).
  { destruct (existsb _ _) eqn:E; trivial.
    apply existsb_exists in E as (x & Hin & Hx). apply Z.eqb_eq in Hx.
    rewrite Forall_forall in Hpast. specialize (Hpast x Hin). lia. }
  rewrite E.
  replace (1 * lr (h r)) with (lr (h r)) by ring.
  rewrite IH.
  - now rewrite upd_same, lr_set_lr.
  - exact Hopt.
  - cbn [MultiStepLR.base MultiStepLR.set_base MultiStepLR._milestones
         BaseScheduler._t BaseScheduler.set_t].
    eapply Forall_impl; [| exact Hpast]. cbn. intros m Hm. lia.
Qed.

Lemma MultiStepLR_constant_after_last_milestone_witness :
  lr_sequence MultiStepLR.step 3 multiStepLR_late stepLR_example_heap
  = repeat (Ok (lr (stepLR_example_heap 0%nat))) 3.
Proof.
  apply (MultiStepLR_constant_after_last_milestone 0%nat 3 multiStepLR_late
           stepLR_example_heap eq_refl).
  repeat constructor; cbn; lia.
Defined.

(** ** StepLR over many calls *)

Lemma div_succ_step (t s : Z) :
  (0 <= t)%Z -> (1 <= s)%Z ->
  ((t + 1) / s = t / s + (if Z.eqb ((t + 1) mod s) 0 then 1 else 0))%Z.
Proof.
  intros Ht Hs.
  destruct (Z.eqb_spec ((t + 1) mod s) 0) as [E | E];
    Z.div_mod_to_equations; nia.
Qed.

Lemma StepLR_decay_iter (gamma lr0 : Qc) (t s : Z) :
  (0 <= t)%Z -> (1 <= s)%Z ->
  (if Z.eqb ((t + 1) mod s) 0 then gamma else 1)
  * Nat.iter (Z.to_nat (t / s)) (Qcmult gamma) lr0
  = Nat.iter (Z.to_nat ((t + 1) / s)) (Qcmult gamma) lr0.
Proof.
  intros Ht Hs. rewrite (div_succ_step t s Ht Hs).
  assert (0 <= t / s)%Z by (apply Z.div_pos; lia).
  destruct (Z.eqb ((t + 1) mod s) 0).
  - rewrite Z2Nat.inj_add by lia.
    change (Z.to_nat 1) with 1%nat. rewrite Nat.add_1_r. reflexivity.
  - rewrite Z.add_0_r. apply Qcmult_1_l.
Qed.

Lemma StepLR_sequence_from (r : ref) (lr0 : Qc) (n : nat) :
  forall (self : StepLR.t) (h : heap),
    BaseScheduler._optim (StepLR.base self) = Some r ->
    (1 <= StepLR._step_size self)%Z ->
    (0 <= BaseScheduler._t (StepLR.base self))%Z ->
    lr (h r)
    = Nat.iter (Z.to_nat (BaseScheduler._t (StepLR.base self)
                          / StepLR._step_size self))
        (Qcmult (StepLR._gamma self)) lr0 ->
    lr_sequence StepLR.step n self h
    = map (fun j =>
             Ok (Nat.iter
                   (Z.to_nat ((BaseScheduler._t (StepLR.base self)
                               + Z.of_nat j) / StepLR._step_size self))
                   (Qcmult (StepLR._gamma self)) lr0))
          (seq 1 n).
Proof.
  induction n as [| n IH]; intros self h Hopt Hs Ht Hlr; trivial.
  cbn [lr_sequence].
  rewrite (StepLR_step_eq self h r Hopt Hs). cbv zeta.
  rewrite Hlr, StepLR_decay_iter by trivial.
  rewrite IH;
    cbn [StepLR.base StepLR.set_base StepLR._step_size StepLR._gamma
         BaseScheduler._t BaseScheduler.set_t BaseScheduler._optim];
    trivial; try lia.
  - change (seq 1 (S n)) with (1%nat :: seq 2 n).
    rewrite <- (seq_shift n 1). cbn [map]. rewrite map_map.
    f_equal.
    apply map_ext. intros j.
    assert (E : forall a, (a + 1 + Z.of_nat j = a + Z.of_nat (S j))%Z)
      by (intros; lia).
    now rewrite E.
  - now rewrite upd_same, lr_set_lr.
Qed.

(** From a counter at 0, the [k]-th call of [StepLR.step] returns the
    learning rate the optimizer had at the start multiplied by [gamma]
    [k // step_size] times, one multiplication after the other. *)
Theorem StepLR_kth_call_from_zero (r : ref) (n : nat) (self : StepLR.t)
    (h : heap) :
  BaseScheduler._optim (StepLR.base self) = Some r ->
  (1 <= StepLR._step_size self)%Z ->
  BaseScheduler._t (StepLR.base self) = 0%Z ->
  lr_sequence StepLR.step n self h
  = map (fun k =>
           Ok (Nat.iter (Z.to_nat (Z.of_nat k / StepLR._step_size self))
                 (Qcmult (StepLR._gamma self)) (lr (h r))))
        (seq 1 n).
Proof.
  intros Hopt Hs Hzero.
  rewrite (StepLR_sequence_from r (lr (h r)) n self h Hopt Hs).
  - rewrite Hzero. reflexivity.
  - rewrite Hzero. lia.
  - rewrite Hzero. reflexivity.
Qed.

Lemma StepLR_kth_call_from_zero_witness :
  lr_sequence StepLR.step 4 stepLR_example stepLR_example_heap
  = map (fun k =>
           Ok (Nat.iter (Z.to_nat (Z.of_nat k / 2))
                 (Qcmult (Q2Qc (1 # 2))) (lr (stepLR_example_heap 0%nat))))
        (seq 1 4).
Proof.
  apply (StepLR_kth_call_from_zero 0%nat 4 stepLR_example
           stepLR_example_heap eq_refl).
  - cbn. lia.
  - reflexivity.
Defined.

(** ** ExponentialLR over many calls *)

Section ExponentialLRSequence.
Variable fpow : Qc -> Qc -> Qc.

Lemma ExponentialLR_step_eq (self : ExponentialLR.t) (h : heap) (r : ref) :
  BaseScheduler._optim (ExponentialLR.base self) = Some r ->
  (0 <= BaseScheduler._t (ExponentialLR.base self))%Z ->
  let t' := (BaseScheduler._t (ExponentialLR.base self) + 1)%Z in
  let new_lr :=
    if (t' <=? ExponentialLR._decay_steps self)%Z
    then BaseScheduler._initial_lr (ExponentialLR.base self)
         * fpow (ExponentialLR._decay_rate self)
             (Qc_of_Z t' / Qc_of_Z (ExponentialLR._decay_steps self))
    else lr (h r) in
  ExponentialLR.step fpow self h =
    (ExponentialLR.set_base self
       (BaseScheduler.set_t (ExponentialLR.base self) t'),
     upd h r (set_lr (h r) new_lr),
     Ok new_lr).
Proof.
  intros Hopt Ht t' new_lr.
  unfold ExponentialLR.step, BaseScheduler.step, ExponentialLR._compute_lr,
    truediv.
  cbn [ExponentialLR.base ExponentialLR.set_base ExponentialLR._decay_steps
       ExponentialLR._decay_rate BaseScheduler._optim BaseScheduler._t
       BaseScheduler._initial_lr BaseScheduler.set_t].
  fold t'. rewrite Hopt. subst new_lr.
  destruct (Z.leb_spec t' (ExponentialLR._decay_steps self)) as [Hle | Hgt].
  - destruct (Z.eqb_spec (ExponentialLR._decay_steps self) 0) as [E | _];
      [subst t'; lia |].
    cbn [bind BaseScheduler.get_current_lr].
    now rewrite upd_same, lr_set_lr.
  - cbn [BaseScheduler.get_current_lr].
    now rewrite upd_same, lr_set_lr.
Qed.

Lemma ExponentialLR_sequence_from (r : ref) (n : nat) :
  forall (self : ExponentialLR.t) (h : heap),
    BaseScheduler._optim (ExponentialLR.base self) = Some r ->
    (0 <= BaseScheduler._t (ExponentialLR.base self))%Z ->
    ((ExponentialLR._decay_steps self
      <= BaseScheduler._t (ExponentialLR.base self))%Z ->
     lr (h r)
     = BaseScheduler._initial_lr (ExponentialLR.base self)
       * fpow (ExponentialLR._decay_rate self)
           (Qc_of_Z (ExponentialLR._decay_steps self)
            / Qc_of_Z (ExponentialLR._decay_steps self))) ->
    lr_sequence (ExponentialLR.step fpow) n self h
    = map (fun j =>
             Ok (BaseScheduler._initial_lr (ExponentialLR.base self)
                 * fpow (ExponentialLR._decay_rate self)
                     (Qc_of_Z
                        (Z.min (BaseScheduler._t (ExponentialLR.base self)
                                + Z.of_nat j)
                               (ExponentialLR._decay_steps self))
                      / Qc_of_Z (ExponentialLR._decay_steps self))))
          (seq 1 n).
Proof.
  induction n as [| n IH]; intros self h Hopt Ht Hfrozen; trivial.
  cbn [lr_sequence].
  rewrite (ExponentialLR_step_eq self h r Hopt Ht). cbv zeta.
  set (t := BaseScheduler._t (ExponentialLR.base self)) in *.
  set (ds := ExponentialLR._decay_steps self) in *.
  assert (Hnew :
    (if (t + 1 <=? ds)%Z
     then BaseScheduler._initial_lr (ExponentialLR.base self)
          * fpow (ExponentialLR._decay_rate self)
              (Qc_of_Z (t + 1) / Qc_of_Z ds)
     else lr (h r))
    = BaseScheduler._initial_lr (ExponentialLR.base self)
      * fpow (ExponentialLR._decay_rate self)
          (Qc_of_Z (Z.min (t + 1) ds) / Qc_of_Z ds)).
  { destruct (Z.leb_spec (t + 1) ds) as [Hle | Hgt].
    - now rewrite Z.min_l by lia.
    - rewrite Z.min_r by lia. apply Hfrozen. lia. }
  rewrite Hnew. subst t ds.
  rewrite IH;
    cbn [ExponentialLR.base ExponentialLR.set_base ExponentialLR._decay_steps
         ExponentialLR._decay_rate BaseScheduler._t BaseScheduler.set_t
         BaseScheduler._optim BaseScheduler._initial_lr];
    trivial; try lia.
  - change (seq 1 (S n)) with (1%nat :: seq 2 n).
    rewrite <- (seq_shift n 1). cbn [map]. rewrite map_map.
    f_equal.
    apply map_ext. intros j.
    assert (E : forall a, (a + 1 + Z.of_nat j = a + Z.of_nat (S j))%Z)
      by (intros; lia).
    now rewrite E.
  - intros Hpast. rewrite upd_same, lr_set_lr.
    now rewrite Z.min_r by lia.
Qed.

(** From a counter at 0 and [decay_steps >= 1], the [k]-th call of
    [ExponentialLR.step] returns
    [initial_lr * decay_rate ** (min(k, decay_steps) / decay_steps)]:
    the formula up to [k = decay_steps], and the value of that call for
    every later one.  The learning rate the optimizer has before a call
    plays no part. *)
Theorem ExponentialLR_kth_call_from_zero (r : ref) (n : nat)
    (self : ExponentialLR.t) (h : heap) :
  BaseScheduler._optim (ExponentialLR.base self) = Some r ->
  BaseScheduler._t (ExponentialLR.base self) = 0%Z ->
  (1 <= ExponentialLR._decay_steps self)%Z ->
  lr_sequence (ExponentialLR.step fpow) n self h
  = map (fun k =>
           Ok (BaseScheduler._initial_lr (ExponentialLR.base self)
               * fpow (ExponentialLR._decay_rate self)
                   (Qc_of_Z (Z.min (Z.of_nat k)
                                   (ExponentialLR._decay_steps self))
                    / Qc_of_Z (ExponentialLR._decay_steps self))))
        (seq 1 n).
Proof.
  intros Hopt Hzero Hds.
  rewrite (ExponentialLR_sequence_from r n self h Hopt).
  - rewrite Hzero. reflexivity.
  - rewrite Hzero. lia.
  - rewrite Hzero. lia.
Qed.

End ExponentialLRSequence.

Lemma ExponentialLR_kth_call_from_zero_witness :
  lr_sequence (ExponentialLR.step (fun x _ => x)) 3 expLR_fresh
    stepLR_example_heap
  = map (fun k =>
           Ok (1 * (fun x _ => x) (Q2Qc (1 # 4))
                     (Qc_of_Z (Z.min (Z.of_nat k) 2) / Qc_of_Z 2)))
        (seq 1 3).
Proof.
  apply (ExponentialLR_kth_call_from_zero (fun x _ => x) 0%nat 3 expLR_fresh
           stepLR_example_heap eq_refl eq_refl).
  cbn. lia.
Defined.

(** ** LinearLR *)

Lemma LinearLR_step_eq (self : LinearLR.t) (h : heap) (r : ref) :
  BaseScheduler._optim (LinearLR.base self) = Some r ->
  let t' := (BaseScheduler._t (LinearLR.base self) + 1)%Z in
  let new_lr :=
    if (LinearLR._start_step self <? t')%Z
       && (t' <=? LinearLR._start_step self + LinearLR._decay_steps self)%Z
    then lr (h r) + LinearLR._lr_delta self
    else lr (h r) in
  LinearLR.step self h =
    (LinearLR.set_base self (BaseScheduler.set_t (LinearLR.base self) t'),
     upd h r (set_lr (h r) new_lr),
     Ok new_lr).
Proof.
  intros Hopt t' new_lr.
  unfold LinearLR.step, BaseScheduler.step, LinearLR._compute_lr.
  cbn [LinearLR.base LinearLR.set_base LinearLR._start_step
       LinearLR._decay_steps LinearLR._lr_delta BaseScheduler._optim
       BaseScheduler._t BaseScheduler.set_t].
  fold t'. rewrite Hopt. subst new_lr.
  destruct ((LinearLR._start_step self <? t')%Z
            && (t' <=? LinearLR._start_step self
                       + LinearLR._decay_steps self)%Z);
    cbn [bind BaseScheduler.get_current_lr];
    now rewrite upd_same, lr_set_lr.
Qed.

(** A call of [LinearLR.step] whose incremented counter [t] satisfies
    [start_step < t <= start_step + decay_steps] adds [_lr_delta] to the
    learning rate the optimizer has at that moment; any other call leaves
    it as it is. *)
Theorem LinearLR_step_adds_delta_in_window
    (self : LinearLR.t) (h : heap) (r : ref) :
  BaseScheduler._optim (LinearLR.base self) = Some r ->
  let t' := (BaseScheduler._t (LinearLR.base self) + 1)%Z in
  exists self' h' new_lr,
    LinearLR.step self h = (self', h', Ok new_lr) /\
    BaseScheduler._t (LinearLR.base self') = t' /\
    lr (h' r) = new_lr /\
    ((LinearLR._start_step self < t'
      <= LinearLR._start_step self + LinearLR._decay_steps self)%Z ->
     new_lr = lr (h r) + LinearLR._lr_delta self) /\
    (~ (LinearLR._start_step self < t'
        <= LinearLR._start_step self + LinearLR._decay_steps self)%Z ->
     new_lr = lr (h r)).
Proof.
  intros Hopt t'.
  pose proof (LinearLR_step_eq self h r Hopt) as Hstep.
  cbv zeta in Hstep. fold t' in Hstep.
  eexists _, _, _. split; [exact Hstep |].
  cbn [LinearLR.base LinearLR.set_base BaseScheduler._t BaseScheduler.set_t].
  split; [reflexivity |]. split; [now rewrite upd_same, lr_set_lr |].
  destruct (Z.ltb_spec (LinearLR._start_step self) t');
    destruct (Z.leb_spec t' (LinearLR._start_step self
                             + LinearLR._decay_steps self));
    cbn [andb]; split; intros; trivial; lia.
Qed.

(** The calls of the decay window that a counter at [t] has behind it. *)
Lemma LinearLR_after_steps_from (r : ref) (lr0 : Qc) (n : nat) :
  forall (self : LinearLR.t) (h : heap),
    let count := fun t =>
      Z.to_nat (Z.min (Z.max (t - LinearLR._start_step self) 0)
                      (LinearLR._decay_steps self)) in
    let add_delta := fun x : Qc => x + LinearLR._lr_delta self in
    BaseScheduler._optim (LinearLR.base self) = Some r ->
    (0 <= LinearLR._decay_steps self)%Z ->
    lr (h r)
    = Nat.iter (count (BaseScheduler._t (LinearLR.base self))) add_delta lr0 ->
    lr (snd (after_steps LinearLR.step n self h) r)
    = Nat.iter (count (BaseScheduler._t (LinearLR.base self)
                       + Z.of_nat n)%Z) add_delta lr0.
Proof.
  induction n as [| n IH]; intros self h count add_delta Hopt Hds Hlr.
  - cbn [after_steps snd]. now rewrite Z.add_0_r.
  - cbn [after_steps].
    rewrite (LinearLR_step_eq self h r Hopt). cbv zeta.
    set (t := BaseScheduler._t (LinearLR.base self)) in *.
    set (self' := LinearLR.set_base self _).
    set (h' := upd h r _).
    assert (Hinv : lr (h' r) = Nat.iter (count (t + 1)%Z) add_delta lr0).
    { subst h'. rewrite upd_same, lr_set_lr, Hlr. subst count. cbv beta.
      destruct (Z.ltb_spec (LinearLR._start_step self) (t + 1));
        destruct (Z.leb_spec (t + 1) (LinearLR._start_step self
                                      + LinearLR._decay_steps self));
        cbn [andb].
      - replace (Z.to_nat
                   (Z.min (Z.max (t + 1 - LinearLR._start_step self) 0)
                          (LinearLR._decay_steps self)))
          with (S (Z.to_nat
                     (Z.min (Z.max (t - LinearLR._start_step self) 0)
                            (LinearLR._decay_steps self)))) by lia.
        reflexivity.
      - f_equal. lia.
      - f_equal. lia.
      - f_equal. lia. }
    specialize (IH self' h' Hopt Hds).
    cbn [self' LinearLR.base LinearLR.set_base LinearLR._start_step
         LinearLR._decay_steps LinearLR._lr_delta BaseScheduler._t
         BaseScheduler.set_t] in IH.
    fold t in IH. rewrite (IH Hinv). subst count. cbv beta.
    replace (t + Z.of_nat (S n))%Z with (t + 1 + Z.of_nat n)%Z by lia.
    reflexivity.
Qed.

(** From a counter at 0 and [start_step >= 0], after [n] calls of
    [LinearLR.step] the optimizer's learning rate is the one it had at the
    start with [_lr_delta] added to it once for each call that fell in
    the window, [min(max(n - start_step, 0), decay_steps)] additions one
    after the other; past the window it no longer changes. *)
Theorem LinearLR_after_calls (r : ref) (n : nat) (self : LinearLR.t)
    (h : heap) :
  BaseScheduler._optim (LinearLR.base self) = Some r ->
  BaseScheduler._t (LinearLR.base self) = 0%Z ->
  (0 <= LinearLR._start_step self)%Z ->
  (0 <= LinearLR._decay_steps self)%Z ->
  lr (snd (after_steps LinearLR.step n self h) r)
  = Nat.iter
      (Z.to_nat (Z.min (Z.max (Z.of_nat n - LinearLR._start_step self) 0)
                       (LinearLR._decay_steps self)))
      (fun x => x + LinearLR._lr_delta self) (lr (h r)).
Proof.
  intros Hopt Hzero Hstart Hds.
  rewrite (LinearLR_after_steps_from r (lr (h r)) n self h Hopt Hds).
  - rewrite Hzero. reflexivity.
  - rewrite Hzero.
    replace (Z.to_nat (Z.min (Z.max (0 - LinearLR._start_step self) 0)
                             (LinearLR._decay_steps self))) with 0%nat by lia.
    reflexivity.
Qed.

Lemma LinearLR_step_adds_delta_in_window_witness :
  exists self' h' new_lr,
    LinearLR.step linearLR_example stepLR_example_heap
    = (self', h', Ok new_lr) /\
    new_lr = lr (stepLR_example_heap 0%nat) + (0 - 1) / Qc_of_Z 4.
Proof.
  destruct (LinearLR_step_adds_delta_in_window linearLR_example
              stepLR_example_heap 0%nat eq_refl)
    as (self' & h' & new_lr & Hstep & _ & _ & Hin & _).
  exists self', h', new_lr. split; [exact Hstep |].
  apply Hin. cbn. lia.
Defined.

Lemma LinearLR_after_calls_witness :
  lr (snd (after_steps LinearLR.step 2 linearLR_example stepLR_example_heap)
        0%nat)
  = Nat.iter (Z.to_nat (Z.min (Z.max (Z.of_nat 2 - 0) 0) 4))
      (fun x => x + (0 - 1) / Qc_of_Z 4) (lr (stepLR_example_heap 0%nat)).
Proof.
  apply (LinearLR_after_calls 0%nat 2 linearLR_example stepLR_example_heap
           eq_refl eq_refl); cbn; lia.
Defined.

(** ** Momentum and RMSProp against their docstrings *)

Lemma Momentum_run_docstring (n : nat) (gs : list (list Qc)) :
  Forall (fun g => length g = n) gs ->
  forall (self : Momentum.t) (acc : list Qc),
    arr_fits n (Momentum._acc self) ->
    stretch n (Momentum._acc self) = acc ->
    snd (run_rule Momentum._compute_step self gs)
    = map (fun step => Ok (Vec step))
        (snd (run_spec (MomentumSpec.update (Momentum.lr self)
                          (Momentum._momentum self)) acc gs)).
Proof.
  induction 1 as [| g gs Hg _ IH]; intros self acc Hfit Hacc; trivial.
  cbn [run_rule run_spec MomentumSpec.update].
  rewrite (Momentum_compute_step_eq self g n Hfit Hg). cbv zeta.
  rewrite zip_with_map_l, Hacc.
  set (acc' := zip_with (fun a g0 => Momentum._momentum self * a + g0) acc g).
  assert (Hlen : length acc' = n).
  { apply zip_with_length_eq; trivial.
    rewrite <- Hacc. now apply stretch_length. }
  specialize (IH (Momentum.set_acc self (Vec acc')) acc' Hlen eq_refl).
  cbn [Momentum.set_acc Momentum.lr Momentum._momentum] in IH.
  destruct (run_rule Momentum._compute_step
              (Momentum.set_acc self (Vec acc')) gs) as [self'' rs].
  destruct (run_spec (MomentumSpec.update (Momentum.lr self)
                        (Momentum._momentum self)) acc' gs) as [s'' steps].
  cbn [snd map] in *. rewrite IH. do 3 f_equal.
  apply map_ext. intros a. ring.
Qed.

(** On the flattened gradient vectors of one source, the calls of
    [Momentum._compute_step] from a new optimizer return the steps of the
    class docstring, [accumulation = momentum * accumulation + gradient]
    and [variable -= learning_rate * accumulation], started from a zero
    accumulation. *)
Theorem Momentum_follows_docstring (lr0 momentum wd : Qc) (n : nat)
    (gs : list (list Qc)) :
  Forall (fun g => length g = n) gs ->
  snd (run_rule Momentum._compute_step (Momentum.__init__ lr0 momentum wd) gs)
  = map (fun step => Ok (Vec step))
      (snd (run_spec (MomentumSpec.update lr0 momentum) (repeat 0 n) gs)).
Proof.
  intros Hgs.
  apply (Momentum_run_docstring n gs Hgs (Momentum.__init__ lr0 momentum wd));
    [exact I | reflexivity].
Qed.

Lemma Momentum_follows_docstring_witness :
  snd (run_rule Momentum._compute_step (Momentum.__init__ 1 q2 0)
         example_gradients)
  = map (fun step => Ok (Vec step))
      (snd (run_spec (MomentumSpec.update 1 q2) (repeat 0 2%nat)
              example_gradients)).
Proof.
  apply (Momentum_follows_docstring 1 q2 0 2 example_gradients).
  exact example_gradients_length.
Defined.

Section RMSPropRefinement.
Variable fsqrt : Qc -> Qc.

Lemma RMSProp_run_docstring (n : nat) (gs : list (list Qc)) :
  Forall (fun g => length g = n) gs ->
  forall (self : RMSProp.t) (s : RMSPropSpec.state),
    arr_fits n (RMSProp._ms self) -> arr_fits n (RMSProp._mom self) ->
    stretch n (RMSProp._ms self) = RMSPropSpec.mean_square s ->
    stretch n (RMSProp._mom self) = RMSPropSpec.mom s ->
    snd (run_rule (RMSProp._compute_step fsqrt) self gs)
    = map (fun step => Ok (Vec step))
        (snd (run_spec (RMSPropSpec.update fsqrt (RMSProp.lr self)
                          (RMSProp._decay self) (RMSProp._momentum self)
                          (RMSProp._eps self)) s gs)).
Proof.
  induction 1 as [| g gs Hg _ IH]; intros self s Hfms Hfmom Hms Hmom; trivial.
  cbn [run_rule run_spec RMSPropSpec.update].
  rewrite (RMSProp_compute_step_eq fsqrt self g n Hfms Hfmom Hg). cbv zeta.
  rewrite Hms, Hmom.
  rewrite !map_map, !zip_with_map, zip_with_map_l.
  set (ms' := zip_with (fun ms g0 =>
                          RMSProp._decay self * ms
                          + (1 - RMSProp._decay self) * (g0 * g0))
                (RMSPropSpec.mean_square s) g).
  set (mom' := zip_with (fun mo x => RMSProp._momentum self * mo + x)
                 (RMSPropSpec.mom s)
                 (zip_with (fun g0 ms =>
                              RMSProp.lr self * g0
                              / fsqrt (ms + RMSProp._eps self)) g ms')).
  assert (Hlms : length ms' = n).
  { apply zip_with_length_eq; trivial.
    rewrite <- Hms. now apply stretch_length. }
  assert (Hlmom : length mom' = n).
  { apply zip_with_length_eq.
    - rewrite <- Hmom. now apply stretch_length.
    - now apply zip_with_length_eq. }
  specialize (IH (RMSProp.set_mom (RMSProp.set_ms self (Vec ms')) (Vec mom'))
                 (RMSPropSpec.mk ms' mom') Hlms Hlmom eq_refl eq_refl).
  cbn [RMSProp.set_mom RMSProp.set_ms RMSProp.lr RMSProp._decay
       RMSProp._momentum RMSProp._eps] in IH.
  destruct (run_rule (RMSProp._compute_step fsqrt)
              (RMSProp.set_mom (RMSProp.set_ms self (Vec ms')) (Vec mom')) gs)
    as [self'' rs].
  destruct (run_spec _ (RMSPropSpec.mk ms' mom') gs) as [s'' steps].
  cbn [snd map] in *. now rewrite IH.
Qed.

(** On the flattened gradient vectors of one source, the calls of
    [RMSProp._compute_step] from a new optimizer return [-mom] for the
    recurrence of the class docstring, started from zero:
    [mean_square = decay * mean_square + (1-decay) * grad**2] and
    [mom = momentum * mom + lr * grad / sqrt(mean_square + epsilon)],
    with [epsilon] under the square root. *)
Theorem RMSProp_follows_docstring (lr0 decay momentum eps wd : Qc) (n : nat)
    (gs : list (list Qc)) :
  Forall (fun g => length g = n) gs ->
  snd (run_rule (RMSProp._compute_step fsqrt)
         (RMSProp.__init__ lr0 decay momentum eps wd) gs)
  = map (fun step => Ok (Vec step))
      (snd (run_spec (RMSPropSpec.update fsqrt lr0 decay momentum eps)
              (RMSPropSpec.mk (repeat 0 n) (repeat 0 n)) gs)).
Proof.
  intros Hgs.
  apply (RMSProp_run_docstring n gs Hgs
           (RMSProp.__init__ lr0 decay momentum eps wd));
    first [exact I | reflexivity].
Qed.

End RMSPropRefinement.

Lemma RMSProp_follows_docstring_witness :
  snd (run_rule (RMSProp._compute_step (fun x => x))
         (RMSProp.__init__ 1 q2 q2 1 0) example_gradients)
  = map (fun step => Ok (Vec step))
      (snd (run_spec (RMSPropSpec.update (fun x => x) 1 q2 q2 1)
              (RMSPropSpec.mk (repeat 0 2%nat) (repeat 0 2%nat))
              example_gradients)).
Proof.
  apply (RMSProp_follows_docstring (fun x => x) 1 q2 q2 1 0 2
           example_gradients).
  exact example_gradients_length.
Defined.

(** ** Accumulators of another length *)

Lemma broadcast_mismatch (f : Qc -> Qc -> Qc) (xs ys : list Qc) :
  length xs <> length ys -> length xs <> 1%nat -> length ys <> 1%nat ->
  broadcast f (Vec xs) (Vec ys) = Raise ValueError.
Proof.
  intros Hne Hx Hy. cbn.
  destruct (Nat.eqb_spec (length xs) (length ys)); [contradiction |].
  destruct xs as [| x [| x' xs]]; destruct ys as [| y [| y' ys]];
    cbn in *; trivial; contradiction.
Qed.

(** A Momentum optimizer whose accumulation has taken the length of one
    source raises [ValueError] in [step] on a source whose gradients
    flatten to another length (neither of them 1): it changes no
    parameter and keeps its accumulation. *)
Theorem Momentum_step_other_length_raises (fsqrt : Qc -> Qc)
    (self : Momentum.t) (acc : list Qc) (net : source) :
  net <> [] ->
  Momentum._acc self = Vec acc ->
  length acc <> length (flatten_grads net) ->
  length acc <> 1%nat ->
  length (flatten_grads net) <> 1%nat ->
  step fsqrt (OMomentum self) net = (OMomentum self, net, Raise ValueError).
Proof.
  intros Hne Hacc Hlen Ha Hg.
  unfold step, BaseOptimizer.step, np_concatenate.
  destruct net as [| pg net']; [contradiction |].
  cbn [map]. fold (flatten_grads (pg :: net')).
  change (concat (ravel (snd pg) :: map (fun pg0 => ravel (snd pg0)) net'))
    with (flatten_grads (pg :: net')).
  cbn [_compute_step]. unfold Momentum._compute_step.
  rewrite Hacc. cbn [amap].
  rewrite broadcast_mismatch by (rewrite ?length_map; trivial).
  reflexivity.
Qed.

Lemma Momentum_step_other_length_raises_witness :
  step (fun x => x) (OMomentum momentum_stale) example_net
  = (OMomentum momentum_stale, example_net, Raise ValueError).
Proof.
  apply (Momentum_step_other_length_raises (fun x => x) momentum_stale
           [1; 1; 1] example_net); cbn; try discriminate; reflexivity.
Defined.

(** A call of [Adam._compute_step] that raises on a first moment of
    another length has already incremented the counter [_t]; the moments
    are as before. *)
Theorem Adam_failed_call_advances_counter (fsqrt : Qc -> Qc) (self : Adam.t)
    (m g : list Qc) :
  Adam._m self = Vec m ->
  length m <> length g -> length m <> 1%nat -> length g <> 1%nat ->
  Adam._compute_step fsqrt self (Vec g)
  = (Adam.set_t self (Adam._t self + 1), Raise ValueError).
Proof.
  intros Hm Hlen Hlm Hlg. unfold Adam._compute_step.
  cbn [Adam.set_t Adam._m Adam._b1]. rewrite Hm. cbn [amap].
  rewrite broadcast_mismatch by (rewrite ?length_map; trivial).
  reflexivity.
Qed.

Lemma Adam_failed_call_advances_counter_witness :
  Adam._compute_step (fun x => x) adam_stale (Vec [1; q2])
  = (Adam.set_t adam_stale 4, Raise ValueError).
Proof.
  apply (Adam_failed_call_advances_counter (fun x => x) adam_stale
           [1; 1; 1] [1; q2]); cbn; try discriminate; reflexivity.
Defined.

(** ** What [step] keeps *)

Lemma compute_step_hyperparameters (fsqrt : Qc -> Qc) (o : optimizer)
    (grad : arr) :
  lr (fst (_compute_step fsqrt o grad)) = lr o /\
  weight_decay (fst (_compute_step fsqrt o grad)) = weight_decay o.
Proof.
  destruct o as [o | o | o | o]; cbn [_compute_step].
  - split; reflexivity.
  - unfold Adam._compute_step.
    repeat (match goal with
            | |- context [match ?b with Ok _ => _ | Raise _ => _ end] =>
                destruct b
            end; cbn [bind fst lr weight_decay]);
      split; reflexivity.
  - unfold RMSProp._compute_step.
    repeat (match goal with
            | |- context [match ?b with Ok _ => _ | Raise _ => _ end] =>
                destruct b
            end; cbn [bind fst lr weight_decay]);
      split; reflexivity.
  - unfold Momentum._compute_step.
    destruct (broadcast _ _ _); split; reflexivity.
Qed.

(** Whatever the optimizer and the source, and whether the call returns or
    raises, [step] leaves the gradients, the number of pairs, and the
    optimizer's [lr] and [weight_decay] as they were. *)
Theorem step_keeps_gradients_and_hyperparameters (fsqrt : Qc -> Qc)
    (o : optimizer) (net : source) :
  grads (snd (fst (step fsqrt o net))) = grads net /\
  length (snd (fst (step fsqrt o net))) = length net /\
  lr (fst (fst (step fsqrt o net))) = lr o /\
  weight_decay (fst (fst (step fsqrt o net))) = weight_decay o.
Proof.
  pose proof (base_step_grads weight_decay (_compute_step fsqrt) o net) as Hg.
  split; [exact Hg |].
  split.
  { unfold grads in Hg. apply (f_equal (@length tensor)) in Hg.
    now rewrite !length_map in Hg. }
  unfold step, BaseOptimizer.step.
  destruct (np_concatenate _) as [G | e]; cbn [fst snd];
    [| split; reflexivity].
  pose proof (compute_step_hyperparameters fsqrt o (Vec G)) as Hh.
  destruct (_compute_step fsqrt o (Vec G)) as [o' [S | e]]; cbn [fst] in *;
    [| exact Hh].
  destruct (BaseOptimizer.loop _ _ _ _ _) as [net' r]. exact Hh.
Qed.

(** ** Step vectors of another length than the parameters *)

Lemma loop_short (wd : Qc) (S : list Qc) (net : source) :
  forall p step,
    Forall (fun pg => shape (fst pg) <> []) net ->
    (p <= length S)%nat ->
    (length S < p + element_count net)%nat ->
    snd (BaseOptimizer.loop wd (Vec S) p step net) = Raise ValueError.
Proof.
  unfold element_count.
  induction net as [| [param grad] rest IH]; intros p step Hshape Hp Hshort.
  - cbn in Hshort. lia.
  - inversion Hshape as [| ? ? Hparam Hrest]; subst. cbn [fst] in Hparam.
    cbn [map fst] in Hshort.
    change (list_sum (?a :: ?l)) with (a + list_sum l)%nat in Hshort.
    cbn [BaseOptimizer.loop].
    unfold BaseOptimizer.param_step, BaseOptimizer.np_prod,
      BaseOptimizer.aslice.
    destruct (shape param) as [| d ds] eqn:Eshape; [contradiction |].
    rewrite <- Eshape in *. cbn [bind].
    rewrite slice_block. unfold reshape.
    remember (prod_shape (shape param)) as n eqn:En.
    destruct (Nat.eqb_spec (length (firstn n (skipn p S))) n) as [Hn | Hn];
      cbn [bind]; [| reflexivity].
    rewrite length_firstn, length_skipn in Hn.
    specialize (IH (p + n)%nat (step ++ [tsub (mkTensor (shape param)
                                                 (firstn n (skipn p S)))
                                           (tscale wd param)]) Hrest).
    destruct (BaseOptimizer.loop wd (Vec S) (p + n) _ rest) as [rest' r].
    cbn [snd] in *. apply IH; lia.
Qed.

Section RuleOutputLength.
Context {Self : Type}.
Variable wd_of : Self -> Qc.
Variable rule : Self -> arr -> Self * result arr.

(** When the step rule returns a vector with fewer entries than the
    parameters have elements, [step] raises [ValueError] (the reshape of
    a block that is too short) and keeps the state the rule left. *)
Theorem step_short_rule_output_raises (self self' : Self) (net : source)
    (S : list Qc) :
  Forall (fun pg => shape (fst pg) <> []) net ->
  rule self (Vec (flatten_grads net)) = (self', Ok (Vec S)) ->
  (length S < element_count net)%nat ->
  snd (BaseOptimizer.step wd_of rule self net) = Raise ValueError /\
  fst (fst (BaseOptimizer.step wd_of rule self net)) = self'.
Proof.
  intros Hshape Hrule Hshort.
  unfold BaseOptimizer.step, np_concatenate.
  destruct net as [| pg net']; [cbn in Hshort; lia |].
  cbn [map].
  change (concat (ravel (snd pg) :: map (fun pg0 => ravel (snd pg0)) net'))
    with (flatten_grads (pg :: net')).
  rewrite Hrule.
  pose proof (loop_short (wd_of self') S (pg :: net') 0 [] Hshape
                (Nat.le_0_l _) Hshort) as Hloop.
  destruct (BaseOptimizer.loop _ _ _ _ _) as [net'' r].
  cbn [fst snd] in *. now split.
Qed.

(** [step] does not compare the length of the step vector, or the shapes
    of the gradients, with the parameters: when the rule returns a vector
    with at least as many entries as the parameters have elements, the
    call returns, each parameter is updated from the next entries that its
    own shape asks for, and the surplus is ignored. *)
Theorem step_ignores_surplus_entries (self self' : Self) (net : source)
    (S : list Qc) :
  net <> [] ->
  Forall (fun pg => shape (fst pg) <> []) net ->
  rule self (Vec (flatten_grads net)) = (self', Ok (Vec S)) ->
  (element_count net <= length S)%nat ->
  BaseOptimizer.step wd_of rule self net
  = (self', apply_updates net (updates_of (wd_of self') S net),
     Ok (updates_of (wd_of self') S net)).
Proof.
  intros Hne Hshape Hrule Hlen.
  unfold BaseOptimizer.step, np_concatenate.
  destruct net as [| pg net']; [contradiction |].
  cbn [map].
  change (concat (ravel (snd pg) :: map (fun pg0 => ravel (snd pg0)) net'))
    with (flatten_grads (pg :: net')).
  rewrite Hrule.
  now rewrite (loop_spec (wd_of self') S (pg :: net') 0 [] Hshape Hlen).
Qed.
End RuleOutputLength.

Lemma step_short_rule_output_raises_witness :
  snd (BaseOptimizer.step weight_decay (_compute_step (fun x => x))
         (OSGD (SGD.__init__ 1 0)) short_grad_net) = Raise ValueError /\
  fst (fst (BaseOptimizer.step weight_decay (_compute_step (fun x => x))
              (OSGD (SGD.__init__ 1 0)) short_grad_net))
  = OSGD (SGD.__init__ 1 0).
Proof.
  apply (step_short_rule_output_raises weight_decay
           (_compute_step (fun x => x)) (OSGD (SGD.__init__ 1 0))
           (OSGD (SGD.__init__ 1 0)) short_grad_net
           (map (Qcmult (- (1))) (flatten_grads short_grad_net))).
  - repeat constructor. discriminate.
  - reflexivity.
  - cbn. lia.
Defined.

Lemma step_ignores_surplus_entries_witness :
  BaseOptimizer.step weight_decay (_compute_step (fun x => x))
    (OSGD (SGD.__init__ 1 0)) long_grad_net
  = (OSGD (SGD.__init__ 1 0),
     apply_updates long_grad_net
       (updates_of 0 (map (Qcmult (- (1))) (flatten_grads long_grad_net))
          long_grad_net),
     Ok (updates_of 0 (map (Qcmult (- (1))) (flatten_grads long_grad_net))
           long_grad_net)).
Proof.
  apply (step_ignores_surplus_entries weight_decay
           (_compute_step (fun x => x)) (OSGD (SGD.__init__ 1 0))
           (OSGD (SGD.__init__ 1 0)) long_grad_net
           (map (Qcmult (- (1))) (flatten_grads long_grad_net))).
  - discriminate.
  - repeat constructor. discriminate.
  - reflexivity.
  - cbn. lia.
Defined.

(** ** The milestones check *)

Lemma increasing_pairs_sorted (l : list Z) :
  forallb (fun xy => Z.ltb (fst xy) (snd xy)) (combine (removelast l) (tl l))
  = true <-> Sorted Z.lt l.
Proof.
  induction l as [| x [| y l] IH].
  - cbn. split; [constructor | reflexivity].
  - cbn. split; [repeat constructor | reflexivity].
  - change (removelast (x :: y :: l)) with (x :: removelast (y :: l)).
    cbn [tl combine forallb fst snd]. rewrite andb_true_iff, IH.
    split.
    + intros [Hxy Hs]. constructor; [exact Hs |].
      constructor. now apply Z.ltb_lt.
    + intros Hs. inversion Hs as [| ? ? Hs' Hhd]; subst.
      inversion Hhd; subst. split; [now apply Z.ltb_lt | exact Hs'].
Qed.

(** The milestones check accepts a list exactly when its values after
    [int()] are strictly increasing, and then keeps them in the order
    given; it raises [AssertionError] otherwise.  Whether a milestone was
    an integer plays no part. *)
Theorem check_milestones_accepts_increasing (milestones : list pyval) :
  (Sorted Z.lt (map py_int milestones) ->
   MultiStepLR.check_milestones milestones = Ok (map py_int milestones)) /\
  (~ Sorted Z.lt (map py_int milestones) ->
   MultiStepLR.check_milestones milestones = Raise AssertionError).
Proof.
  unfold MultiStepLR.check_milestones.
  assert (Hint : forallb (fun x => isinstance_int (PyInt x))
                   (map py_int milestones) = true).
  { apply forallb_forall. reflexivity. }
  rewrite Hint, andb_true_r.
  pose proof (increasing_pairs_sorted (map py_int milestones)) as Hs.
  destruct (forallb _ (combine _ _)); cbn [assert bind].
  - split; [reflexivity |]. intros Hn. exfalso. apply Hn. now apply Hs.
  - split; [| reflexivity]. intros Hsorted. apply Hs in Hsorted.
    discriminate.
Qed.

Lemma check_milestones_accepts_increasing_witness :
  MultiStepLR.check_milestones [PyFloat q1_5; PyFloat q3_2]
  = Ok (map py_int [PyFloat q1_5; PyFloat q3_2]).
Proof.
  apply (proj1 (check_milestones_accepts_increasing
                  [PyFloat q1_5; PyFloat q3_2])).
  cbn. repeat constructor.
Defined.
